(** * Chord inference post-processing (basic-pitch-server/chord_inference.py)

    Shallow embedding of the chord inference pipeline of the Amadeus
    basic-pitch server.  Python floats are modelled as exact rationals [Q];
    MIDI pitches and pitch classes as [Z] (Python's [%] is [Z.modulo]);
    chord symbols and chord types as [string]; Python dicts whose iteration
    order matters (insertion order) as association lists; Python sets of
    pitch classes as duplicate-free lists.

    The key detector's Pearson correlation [r = cov / sqrt (vx * vy)] is a
    square root.  It is represented exactly by its signed square
    [r * |r| = cov * |cov| / (vx * vy)]: the map [r |-> r * |r|] is strictly
    increasing, so every comparison the source makes between correlations
    (and against the initial [-1]) is decided identically, and the clamp of
    [r] to [0,1] corresponds to the clamp of [r * |r|] to [0,1].  A
    [KeyEstimate] therefore carries the square of its confidence. *)

From Stdlib Require Import String Ascii.
From Stdlib Require Import QArith Qabs Qminmax Qround ZArith List Bool Lia Lqa.
From Stdlib Require Import Permutation Sorted Btauto.
Import ListNotations.
Open Scope Q_scope.

(** ** Data structures *)

Module Note.
  (** [@dataclass class NoteEvent] *)
Record t := mk { onset : Q; offset : Q; pitch : Z; confidence : Q }.
Definition duration (n : t) : Q := offset n - onset n.
Definition pitch_class (n : t) : Z := Z.modulo (pitch n) 12.
End Note.

Module Chord.
  (** [@dataclass class ChordEvent]; [pitch_classes] is a Python set. *)
Record t := mk {
    onset : Q; offset : Q; chord_symbol : string; confidence : Q;
    pitch_classes : list Z; root_pc : Z; chord_type : string }.
End Chord.

Inductive Mode := Major | Minor.

(** [@dataclass class KeyEstimate]; [confidence_sq] is the square of the
    source's [confidence] (see the header). *)
Record KeyEstimate := mkKey { key_pc : Z; mode : Mode; confidence_sq : Q }.

(** ** Configuration ([class ChordInferenceConfig]) *)

Definition MEDIAN_FILTER_SIZE : nat := 3.
Definition MIN_NOTE_DURATION : Q := 0.06.
Definition WINDOW_SIZE : Q := 2.0.
Definition WINDOW_OVERLAP : Q := 0.2.
Definition MIN_NOTES_PER_CHORD : nat := 2.
Definition KEY_FILTER_CONFIDENCE_THRESHOLD : Q := 0.15.
Definition MIN_CHORD_DURATION : Q := 0.3.
Definition MERGE_THRESHOLD : Q := 0.4.
Definition FUNCTIONAL_CHORDS : list string :=
  ["major"; "minor"; "sus2"; "sus4"; "7"; "m7"; "maj7"; "m11"; "dim"; "aug";
   "add9"; "6"]%string.

(** ** Helpers: Python comparisons and builtins on floats and lists *)

Definition Qltb (a b : Q) : bool := negb (Qle_bool b a).
Definition Qleb (a b : Q) : bool := Qle_bool a b.

(** [sum(...)] and [np.sum] : left-to-right addition from 0.  [Qred]
    (which preserves the value) keeps the rationals small during
    evaluation. *)
Definition sumQ (l : list Q) : Q := fold_left (fun a b => Qred (a + b)) l 0.

(** Stable insertion sort keyed on a float, ascending ([list.sort] and
    [sorted] are stable): [x] goes after every element whose key is [<=]. *)
Fixpoint insert_by {A} (key : A -> Q) (x : A) (l : list A) : list A :=
  match l with
  | [] => [x]
  | y :: t => if Qleb (key y) (key x) then y :: insert_by key x t else x :: l
  end.

Definition sort_by {A} (key : A -> Q) (l : list A) : list A :=
  fold_left (fun acc x => insert_by key x acc) l [].

(** [sorted(..., reverse=True)]: stable descending sort; [x] goes after
    every element whose key is [>=]. *)
Fixpoint insert_desc_by {A} (key : A -> Q) (x : A) (l : list A) : list A :=
  match l with
  | [] => [x]
  | y :: t => if Qleb (key x) (key y) then y :: insert_desc_by key x t else x :: l
  end.

Definition sort_desc_by {A} (key : A -> Q) (l : list A) : list A :=
  fold_left (fun acc x => insert_desc_by key x acc) l [].

(** [min] / [max] of a non-empty list of ints (default for the empty list). *)
Definition minZ (l : list Z) : Z :=
  match l with [] => 0%Z | x :: t => fold_left Z.min t x end.

Definition mem_Z (x : Z) (l : list Z) : bool := existsb (Z.eqb x) l.

(** ** Key detection ([class KeyDetector]) *)

Definition MAJOR_PROFILE : list Q :=
  [6.35; 2.23; 3.48; 2.33; 4.38; 4.09; 2.52; 5.19; 2.39; 3.66; 2.29; 2.88].
Definition MINOR_PROFILE : list Q :=
  [6.33; 2.68; 3.52; 5.38; 2.60; 3.53; 2.54; 4.75; 3.98; 2.69; 3.34; 3.17].

(** [profile / np.sum(profile)] *)
Definition normalize (l : list Q) : list Q := map (fun x => Qred (x / sumQ l)) l.

Definition major_profile : list Q := normalize MAJOR_PROFILE.
Definition minor_profile : list Q := normalize MINOR_PROFILE.

(** [np.roll(profile, r)]: the last [r] entries move to the front. *)
Definition roll (l : list Q) (r : nat) : list Q :=
  let k := (length l - r mod length l)%nat in (skipn k l ++ firstn k l)%list.

Definition mean (l : list Q) : Q := Qred (sumQ l / inject_Z (Z.of_nat (length l))).

(** [np.corrcoef(x, y)[0, 1]] with the NaN of a zero variance replaced by
    [0.0], as the signed square [r * |r|] of the Pearson correlation [r]. *)
Definition corrcoef_sq (x y : list Q) : Q :=
  let mx := mean x in
  let my := mean y in
  let dx := map (fun a => Qred (a - mx)) x in
  let dy := map (fun b => Qred (b - my)) y in
  let cov := sumQ (map (fun p => Qred (fst p * snd p)) (combine dx dy)) in
  let vx := sumQ (map (fun a => Qred (a * a)) dx) in
  let vy := sumQ (map (fun b => Qred (b * b)) dy) in
  if Qeq_bool (vx * vy) 0 then 0 else Qred (cov * Qabs cov / (vx * vy)).

(** [_correlate_with_profile] *)
Definition correlate_with_profile (pc_weights : list Q) (root_pc : nat)
    (profile : list Q) : Q :=
  corrcoef_sq pc_weights (roll profile root_pc).

(** [pc_weights[pc] += weight] on a [np.zeros(12)] array. *)
Fixpoint add_at (i : nat) (w : Q) (l : list Q) : list Q :=
  match l, i with
  | [], _ => []
  | x :: t, O => (x + w) :: t
  | x :: t, S j => x :: add_at j w t
  end.

Definition histogram (events : list Note.t) : list Q :=
  fold_left (fun h n => add_at (Z.to_nat (Note.pitch_class n))
                              (Note.duration n * Note.confidence n) h)
            events (repeat 0 12).

(** One step of the 24-candidate scan: test major, then minor, replacing
    the best only on a strictly greater correlation. *)
Definition key_step (pc_weights : list Q) (st : Q * (nat * Mode)) (root_pc : nat)
    : Q * (nat * Mode) :=
  let '(best, bk) := st in
  let major_correlation := correlate_with_profile pc_weights root_pc major_profile in
  let '(best, bk) :=
    if Qltb best major_correlation then (major_correlation, (root_pc, Major))
    else (best, bk) in
  let minor_correlation := correlate_with_profile pc_weights root_pc minor_profile in
  if Qltb best minor_correlation then (minor_correlation, (root_pc, Minor))
  else (best, bk).

(** [max(0.0, min(1.0, x))] *)
Definition clamp01 (x : Q) : Q := Qmax 0 (Qmin 1 x).

(** The short-note filter of [estimate_key] (with its fallback to all
    notes) followed by the weighted pitch-class histogram. *)
Definition key_histogram (note_events : list Note.t) (exclude_short_notes : bool)
    : list Q :=
  let filtered_events :=
    if exclude_short_notes then
      match filter (fun n => Qleb MIN_NOTE_DURATION (Note.duration n)) note_events with
      | [] => note_events
      | f => f
      end
    else note_events in
  histogram filtered_events.

(** [KeyDetector.estimate_key] *)
Definition estimate_key (note_events : list Note.t) (exclude_short_notes : bool)
    : KeyEstimate :=
  match note_events with
  | [] => mkKey 0 Major 0
  | _ =>
    let pc_weights := key_histogram note_events exclude_short_notes in
    if Qeq_bool (sumQ pc_weights) 0 then mkKey 0 Major 0
    else
      let pc_weights := map (fun x => Qred (x / sumQ pc_weights)) pc_weights in
      let '(best_correlation, (best_key_pc, best_mode)) :=
        fold_left (key_step pc_weights) (seq 0 12) (-1, (0%nat, Major)) in
      mkKey (Z.of_nat best_key_pc) best_mode (clamp01 best_correlation)
  end.

(** ** Pitch smoothing ([class PitchSmoother]) *)

(** [scipy.signal.medfilt(volume, kernel_size)] on a 1-D array (odd
    [kernel_size]): the array is padded with [kernel_size // 2] zeros on
    each side and each output is the middle element of the sorted window
    centred on the input position. *)
Definition medfilt (kernel_size : nat) (xs : list Q) : list Q :=
  let h := Nat.div kernel_size 2 in
  let padded := (repeat 0 h ++ xs ++ repeat 0 h)%list in
  map (fun i => nth h (sort_by (fun q => q) (firstn kernel_size (skipn i padded))) 0)
      (seq 0 (length xs)).

(** [pc_events = defaultdict(list)]; [pc_events[pc].append(note)], kept in
    insertion order of the keys. *)
Fixpoint group_add (pc : Z) (n : Note.t) (g : list (Z * list Note.t))
    : list (Z * list Note.t) :=
  match g with
  | [] => [(pc, [n])]
  | (k, ns) :: t =>
    if Z.eqb k pc then (k, (ns ++ [n])%list) :: t else (k, ns) :: group_add pc n t
  end.

Definition group_by_pc (note_events : list Note.t) : list (Z * list Note.t) :=
  fold_left (fun g n => group_add (Note.pitch_class n) n g) note_events [].

(** The body of the [for pc, events in pc_events.items()] loop. *)
Definition smooth_group (filter_size : nat) (events : list Note.t) : list Note.t :=
  if (length events <=? 1)%nat then events
  else
    let events := sort_by Note.onset events in
    let confidences := map Note.confidence events in
    if (filter_size <=? length confidences)%nat then
      map (fun ec => Note.mk (Note.onset (fst ec)) (Note.offset (fst ec))
                             (Note.pitch (fst ec)) (snd ec))
          (combine events (medfilt filter_size confidences))
    else events.

(** [PitchSmoother.smooth_pitch_activity] *)
Definition smooth_pitch_activity (filter_size : nat) (note_events : list Note.t)
    : list Note.t :=
  match note_events with
  | [] => []
  | _ => flat_map (fun ge => smooth_group filter_size (snd ge)) (group_by_pc note_events)
  end.

(** ** Note filters *)

(** [ChordInferenceEngine._filter_short_notes] *)
Definition filter_short_notes (events : list Note.t) : list Note.t :=
  filter (fun e => Qleb MIN_NOTE_DURATION (Note.duration e)) events.

Definition scale_intervals (m : Mode) : list Z :=
  match m with
  | Major => [0; 2; 4; 5; 7; 9; 11]%Z
  | Minor => [0; 2; 3; 5; 7; 8; 10]%Z
  end.

Definition scale_pcs (ke : KeyEstimate) : list Z :=
  map (fun i => Z.modulo (key_pc ke + i) 12) (scale_intervals (mode ke)).

(** [key_estimate.confidence < t] for a threshold [t >= 0], on the squared
    confidence. *)
Definition key_conf_below (ke : KeyEstimate) (t : Q) : bool :=
  Qltb (confidence_sq ke) (t * t).

(** [ChordInferenceEngine._apply_key_filtering] *)
Definition apply_key_filtering (events : list Note.t) (ke : KeyEstimate) : list Note.t :=
  if key_conf_below ke 0.5 then events
  else
    filter (fun e => mem_Z (Note.pitch_class e) (scale_pcs ke)
                     || Qleb KEY_FILTER_CONFIDENCE_THRESHOLD (Note.confidence e))
           events.

(** [ChordInferenceEngine._is_in_key] *)
Definition is_in_key (pitch_class : Z) (ke : KeyEstimate) : bool :=
  if key_conf_below ke 0.5 then true else mem_Z pitch_class (scale_pcs ke).

(** ** Chord identification ([ChordInferenceEngine._identify_chord]) *)

Definition note_names : list string :=
  ["C"; "C#"; "D"; "D#"; "E"; "F"; "F#"; "G"; "G#"; "A"; "A#"; "B"]%string.

(** [note_names[i]] for [0 <= i < 12] (the only indices the source uses). *)
Definition note_name (i : Z) : string := nth (Z.to_nat i) note_names ""%string.

(** One row of [chord_tests]: required intervals, chord type, suffix, base
    score. *)
Record ChordTest := mkTest {
  required_intervals : list Z; test_type : string; suffix : string; base_score : Q }.

Definition chord_tests : list ChordTest :=
  [ mkTest [0; 4; 7]%Z "major" "" 10;
    mkTest [0; 3; 7]%Z "minor" "m" 10;
    mkTest [0; 4; 7; 10]%Z "7" "7" 12;
    mkTest [0; 3; 7; 10]%Z "m7" "m7" 12;
    mkTest [0; 4; 7; 11]%Z "maj7" "maj7" 12;
    mkTest [0; 3; 7; 10; 2; 5]%Z "m11" "m11" 14;
    mkTest [0; 4; 7; 2]%Z "add9" "add9" 11;
    mkTest [0; 4; 7; 9]%Z "6" "6" 11;
    mkTest [0; 3; 6]%Z "dim" "dim" 9;
    mkTest [0; 4; 8]%Z "aug" "aug" 9;
    mkTest [0; 2; 7]%Z "sus2" "sus2" 8;
    mkTest [0; 5; 7]%Z "sus4" "sus4" 8;
    mkTest [0; 4]%Z "major" "" 6;
    mkTest [0; 3]%Z "minor" "m" 6;
    mkTest [0; 7]%Z "major" "" 4 ]%string.

(** [set(l)] on ints, keeping the first occurrence. *)
Definition dedupZ (l : list Z) : list Z :=
  rev (fold_left (fun acc x => if mem_Z x acc then acc else x :: acc) l []).

Definition subsetZ (a b : list Z) : bool := forallb (fun x => mem_Z x b) a.
Definition set_eqZ (a b : list Z) : bool := subsetZ a b && subsetZ b a.

(** [pc_weights.get(k, 0.0)] on an insertion-ordered dict. *)
Fixpoint lookup_weight (k : Z) (d : list (Z * Q)) : Q :=
  match d with
  | [] => 0
  | (k', w) :: t => if Z.eqb k k' then w else lookup_weight k t
  end.

(** [max(pc_weights.values())] *)
Definition max_value (d : list (Z * Q)) : Q :=
  match d with [] => 0 | (_, w) :: t => fold_left (fun m kv => Qmax m (snd kv)) t w end.

(** The [root_strength_bonus] of a candidate root. *)
Definition root_strength_bonus (pitch_classes : list Z) (pc_weights : list (Z * Q))
    (root : Z) : Q :=
  match pc_weights with
  | [] => 1
  | _ =>
    let root_weight := lookup_weight root pc_weights in
    let max_weight := max_value pc_weights in
    let b := if Qltb 0 root_weight then 1 + root_weight / max_weight * 0.8 else 1 in
    if Z.eqb root (minZ pitch_classes) then b * 1.3 else b
  end.

(** The score of [(root, test)], or [None] when the required intervals are
    not a subset of the candidate's interval set. *)
Definition chord_score (pitch_classes : list Z) (ke : KeyEstimate)
    (pc_weights : list (Z * Q)) (root : Z) (t : ChordTest) : option Q :=
  let intervals_set := dedupZ (map (fun pc => Z.modulo (pc - root) 12) pitch_classes) in
  let req := required_intervals t in
  if subsetZ req intervals_set then
    let match_ratio := inject_Z (Z.of_nat (length req))
                       / inject_Z (Z.of_nat (length intervals_set)) in
    let score := base_score t * match_ratio in
    let score := if set_eqZ intervals_set req then score * 1.5 else score in
    let score := score * root_strength_bonus pitch_classes pc_weights root in
    let score := if is_in_key root ke then score * 1.2 else score in
    let score :=
      if Z.eqb root (key_pc ke)
         && (match mode ke with
             | Major => String.eqb (test_type t) "major"
             | Minor => String.eqb (test_type t) "minor" end)
      then score * 1.4 else score in
    Some score
  else None.

(** The state [(best_score, best_match)] of the two nested loops, with
    [best_match = (symbol, chord_type, root)]. *)
Definition id_state : Type := (Q * option (string * string * Z))%type.

Definition id_step (pitch_classes : list Z) (ke : KeyEstimate) (pc_weights : list (Z * Q))
    (root : Z) (st : id_state) (t : ChordTest) : id_state :=
  match chord_score pitch_classes ke pc_weights root t with
  | Some score =>
    if Qltb (fst st) score
    then (score, Some ((note_name root ++ suffix t)%string, test_type t, root))
    else st
  | None => st
  end.

Definition identify_chord (pitch_classes : list Z) (ke : KeyEstimate)
    (pc_weights : list (Z * Q)) : string * string :=
  match pitch_classes with
  | [] => ("N"%string, "unknown"%string)
  | _ =>
    let '(_, best_match) :=
      fold_left (fun st root =>
                   fold_left (id_step pitch_classes ke pc_weights root) chord_tests st)
                pitch_classes (0, None) in
    match best_match with
    | Some (symbol, ty, _) => (symbol, ty)
    | None => ((note_name (minZ pitch_classes) ++ "?")%string, "unknown"%string)
    end
  end.

(** ** Windowed chord detection *)

(** [pc_weights[pc] += weight] on a [defaultdict(float)], insertion order. *)
Fixpoint add_weight (pc : Z) (w : Q) (d : list (Z * Q)) : list (Z * Q) :=
  match d with
  | [] => [(pc, 0 + w)]
  | (k, v) :: t => if Z.eqb k pc then (k, v + w) :: t else (k, v) :: add_weight pc w t
  end.

(** The weight of a note in the window [start_time, end_time]. *)
Definition window_weight (start_time end_time : Q) (note : Note.t) : Q :=
  let overlap_start := Qmax (Note.onset note) start_time in
  let overlap_end := Qmin (Note.offset note) end_time in
  let overlap_duration := Qmax 0 (overlap_end - overlap_start) in
  Note.confidence note * overlap_duration.

Definition window_histogram (notes : list Note.t) (start_time end_time : Q)
    : list (Z * Q) :=
  fold_left (fun d note => add_weight (Note.pitch_class note)
                                      (window_weight start_time end_time note) d)
            notes [].

(** [ChordInferenceEngine._analyze_window] *)
Definition analyze_window (notes : list Note.t) (start_time end_time : Q)
    (ke : KeyEstimate) : option Chord.t :=
  match notes with
  | [] => None
  | _ =>
    let pc_weights := window_histogram notes start_time end_time in
    match pc_weights with
    | [] => None
    | _ =>
      let sorted_pcs := sort_desc_by snd pc_weights in
      let max_weight := match sorted_pcs with [] => 0 | (_, w) :: _ => w end in
      let threshold := max_weight * 0.2 in
      let significant_pcs :=
        map fst (filter (fun kw => Qleb threshold (snd kw)) sorted_pcs) in
      let significant_pcs := firstn 6 significant_pcs in
      if (length significant_pcs <? MIN_NOTES_PER_CHORD)%nat then None
      else
        let '(chord_symbol, chord_type) := identify_chord significant_pcs ke pc_weights in
        let total_weight := sumQ (map snd pc_weights) in
        let avg_confidence := total_weight / inject_Z (Z.of_nat (length notes)) in
        Some (Chord.mk start_time end_time chord_symbol (Qmin avg_confidence 1)
                       significant_pcs (minZ significant_pcs) chord_type)
    end
  end.

(** Number of iterations of [while current_time < end_time:
    current_time += step] from [start_time]: [ceil((end - start) / step)]. *)
Definition iterations_below (start_time end_time step : Q) : nat :=
  Z.to_nat (Qceiling ((end_time - start_time) / step)).

(** The [while current_time < end_time] loop of [_detect_chords_in_windows];
    [fuel] bounds the number of iterations (it is set to the exact count). *)
Fixpoint window_loop (fuel : nat) (sorted_events : list Note.t) (ke : KeyEstimate)
    (current_time end_time : Q) : list Chord.t :=
  match fuel with
  | O => []
  | S fuel =>
    if Qltb current_time end_time then
      let window_end := current_time + WINDOW_SIZE in
      let window_notes :=
        filter (fun e => Qltb (Note.onset e) window_end && Qltb current_time (Note.offset e))
               sorted_events in
      let chord :=
        if (MIN_NOTES_PER_CHORD <=? length window_notes)%nat
        then analyze_window window_notes current_time window_end ke else None in
      let rest := window_loop fuel sorted_events ke
                    (current_time + (WINDOW_SIZE - WINDOW_OVERLAP)) end_time in
      match chord with Some c => c :: rest | None => rest end
    else []
  end.

(** [max(event.offset for event in events)] *)
Definition max_offset (events : list Note.t) : Q :=
  match events with
  | [] => 0
  | e :: t => fold_left (fun m x => Qmax m (Note.offset x)) t (Note.offset e)
  end.

(** [ChordInferenceEngine._detect_chords_in_windows] *)
Definition detect_chords_in_windows (events : list Note.t) (ke : KeyEstimate)
    : list Chord.t :=
  match events with
  | [] => []
  | _ =>
    let sorted_events := sort_by Note.onset events in
    let start_time := match sorted_events with [] => 0 | e :: _ => Note.onset e end in
    let end_time := max_offset sorted_events in
    window_loop (iterations_below start_time end_time (WINDOW_SIZE - WINDOW_OVERLAP))
                sorted_events ke start_time end_time
  end.

(** ** Harmony filtering *)

Definition contains_char (c : ascii) (s : string) : bool :=
  existsb (fun d => Ascii.eqb c d) (list_ascii_of_string s).

Definition chord_duration (c : Chord.t) : Q := Chord.offset c - Chord.onset c.

(** [ChordInferenceEngine._is_chord_root_in_key] *)
Definition is_chord_root_in_key (chord : Chord.t) (ke : KeyEstimate) : bool :=
  if key_conf_below ke 0.6 then true else is_in_key (Chord.root_pc chord) ke.

(** [ChordInferenceEngine._chord_repeats] *)
Definition chord_repeats (target : Chord.t) (all_chords : list Chord.t) : bool :=
  (2 <=? length (filter (fun c => String.eqb (Chord.chord_symbol c)
                                             (Chord.chord_symbol target)) all_chords))%nat.

Definition mem_string (s : string) (l : list string) : bool := existsb (String.eqb s) l.

(** Whether the loop of [_apply_harmony_filtering] appends [chord]. *)
Definition keep_chord (chords : list Chord.t) (ke : KeyEstimate) (chord : Chord.t) : bool :=
  if (contains_char "?" (Chord.chord_symbol chord) || contains_char "!" (Chord.chord_symbol chord))
     && Qltb (Chord.confidence chord) 0.6 && Qltb (chord_duration chord) 1.0
  then false
  else
    let is_root_in_key := is_chord_root_in_key chord ke in
    if mem_string (Chord.chord_type chord) FUNCTIONAL_CHORDS && is_root_in_key then true
    else if negb is_root_in_key then
      (Qleb 0.7 (Chord.confidence chord) && Qleb 1.0 (chord_duration chord))
      || (String.eqb (Chord.chord_type chord) "m11" && Qleb 0.6 (Chord.confidence chord))
    else
      Qleb 0.3 (Chord.confidence chord) || Qleb 0.6 (chord_duration chord)
      || chord_repeats chord chords.

(** [ChordInferenceEngine._apply_harmony_filtering] *)
Definition apply_harmony_filtering (chords : list Chord.t) (ke : KeyEstimate)
    : list Chord.t :=
  filter (keep_chord chords ke) chords.

(** ** Binary64 rounding *)

(** [floor(log2 x)] for [x > 0]: with [k = log2(num) - log2(den)],
    [2^(k-1) < x < 2^(k+1)]. *)
Definition Qlog2_floor (x : Q) : Z :=
  let k := (Z.log2 (Qnum x) - Z.log2 (Zpos (Qden x)))%Z in
  if Qltb x (Qpower 2 k) then (k - 1)%Z else k.

(** Rounding to an integer, ties to even. *)
Definition round_half_even (x : Q) : Z :=
  let f := Qfloor x in
  let r := x - inject_Z f in
  if Qltb r (1 # 2) then f
  else if Qltb (1 # 2) r then (f + 1)%Z
  else if Z.even f then f else (f + 1)%Z.

(** Rounding to the nearest IEEE 754 binary64 number, ties to even: a
    53-bit significand, exponents down to the subnormal [2^-1074].  The
    magnitudes rounded here stay far below the overflow threshold
    [2^1024]. *)
Definition round_binary64 (x : Q) : Q :=
  let x := Qred x in
  if Qeq_bool x 0 then 0
  else
    let a := Qabs x in
    let e := Z.max (Qlog2_floor a - 52) (-1074) in
    let r := Qred (inject_Z (round_half_even (a / Qpower 2 e)) * Qpower 2 e) in
    if Qltb x 0 then - r else r.

(** Python's [float + float]. *)
Definition fadd (x y : Q) : Q := round_binary64 (x + y).

(** ** Chord window smoothing ([class ChordWindowSmoother]) *)

Definition timeline_resolution : Q := 0.5.

(** The [while current_time <= end_time] loop sampling the timeline, with
    [current_time += timeline_resolution] rounded to binary64.  Where the
    rounded sum no longer exceeds [current_time] (times of 2^52 s and more)
    the source never leaves the loop; the model stops there.  [fuel] bounds
    the number of iterations. *)
Fixpoint timeline (fuel : nat) (current_time end_time : Q) : list Q :=
  match fuel with
  | O => []
  | S fuel =>
    if Qleb current_time end_time
    then
      let next_time := fadd current_time timeline_resolution in
      current_time ::
        (if Qltb current_time next_time then timeline fuel next_time end_time else [])
    else []
  end.

(** Enough iterations for the loop: below 2^52 every rounded step advances
    [current_time] by at least [timeline_resolution / 2] (the rounding
    error of a sum below 2^52 is at most a quarter), and above it a step
    that advances at all advances by at least 1, so there are at most
    [floor((end - start) * 4) + 1] points. *)
Definition timeline_fuel (start_time end_time : Q) : nat :=
  S (S (S (Z.to_nat (Qfloor ((end_time - start_time) * 4))))).

Definition min_onset (cs : list Chord.t) : Q :=
  match cs with
  | [] => 0
  | c :: t => fold_left (fun m x => Qmin m (Chord.onset x)) t (Chord.onset c)
  end.

Definition max_chord_offset (cs : list Chord.t) : Q :=
  match cs with
  | [] => 0
  | c :: t => fold_left (fun m x => Qmax m (Chord.offset x)) t (Chord.offset c)
  end.

(** [active_chord or "N"] for the first chord with [onset <= t < offset]. *)
Definition label_at (chord_events : list Chord.t) (time_point : Q) : string :=
  match find (fun c => Qleb (Chord.onset c) time_point && Qltb time_point (Chord.offset c))
             chord_events with
  | Some c => if String.eqb (Chord.chord_symbol c) "" then "N" else Chord.chord_symbol c
  | None => "N"
  end%string.

(** [Counter(s for s in window if s != "N")], insertion ordered. *)
Fixpoint count_add (s : string) (cnt : list (string * nat)) : list (string * nat) :=
  match cnt with
  | [] => [(s, 1%nat)]
  | (k, n) :: t => if String.eqb k s then (k, S n) :: t else (k, n) :: count_add s t
  end.

Definition symbol_counts (window : list string) : list (string * nat) :=
  fold_left (fun cnt s => if String.eqb s "N" then cnt else count_add s cnt) window [].

(** [most_common(1)[0][0]]: the first key with the largest count
    ([heapq.nlargest(1, ...)] is [max], which keeps the first maximum). *)
Definition most_common (cnt : list (string * nat)) : option string :=
  match cnt with
  | [] => None
  | (k, n) :: t =>
    Some (fst (fold_left (fun best kv => if (snd best <? snd kv)%nat then kv else best)
                         t (k, n)))
  end.

Definition slice {A} (l : list A) (i j : nat) : list A := firstn (j - i) (skipn i l).

Definition filter_window : nat :=
  Nat.max 3 (Z.to_nat (Qfloor (1.0 / timeline_resolution))).

(** The smoothed label of grid index [i]. *)
Definition smoothed_label (chord_symbols : list string) (i : nat) : string :=
  let window_start := (i - Nat.div filter_window 2)%nat in
  let window_end := Nat.min (length chord_symbols) (window_start + filter_window) in
  match most_common (symbol_counts (slice chord_symbols window_start window_end)) with
  | Some s => s
  | None => "N"%string
  end.

(** [next((c for c in chord_events if c.chord_symbol == symbol), None)] *)
Definition find_original (chord_events : list Chord.t) (symbol : string) : option Chord.t :=
  find (fun c => String.eqb (Chord.chord_symbol c) symbol) chord_events.

(** The chord emitted for a finished run, if any. *)
Definition emit_run (chord_events : list Chord.t) (symbol : string) (on off : Q)
    : list Chord.t :=
  if String.eqb symbol "N" then []
  else match find_original chord_events symbol with
       | Some o => [Chord.mk on off symbol (Chord.confidence o) (Chord.pitch_classes o)
                             (Chord.root_pc o) (Chord.chord_type o)]
       | None => []
       end.

(** The [for i in range(1, len(smoothed_symbols))] loop: [rest] holds the
    pairs [(timeline_points[i], smoothed_symbols[i])] still to visit and
    [prev_point] is [timeline_points[i-1]].  Returns the emitted chords and
    the final [(current_symbol, current_start_time)]. *)
Fixpoint reseg_loop (chord_events : list Chord.t) (rest : list (Q * string))
    (current_symbol : string) (current_start_time prev_point : Q)
    : list Chord.t * (string * Q) :=
  match rest with
  | [] => ([], (current_symbol, current_start_time))
  | (p, s) :: rest' =>
    let is_last := match rest' with [] => true | _ => false end in
    if negb (String.eqb s current_symbol) || is_last then
      let emitted := emit_run chord_events current_symbol current_start_time
                              (fadd prev_point timeline_resolution) in
      let '(out, st) := reseg_loop chord_events rest' s p p in
      ((emitted ++ out)%list, st)
    else reseg_loop chord_events rest' current_symbol current_start_time p
  end.

(** Grouping of the smoothed labels back into chord events. *)
Definition resegment (chord_events : list Chord.t) (timeline_points : list Q)
    (smoothed_symbols : list string) (end_time : Q) : list Chord.t :=
  match combine timeline_points smoothed_symbols with
  | [] => []
  | (p0, s0) :: rest =>
    let '(out, (current_symbol, current_start_time)) :=
      reseg_loop chord_events rest s0 p0 p0 in
    (out ++ emit_run chord_events current_symbol current_start_time end_time)%list
  end.

(** [ChordWindowSmoother.smooth_chord_progression] *)
Definition smooth_chord_progression (chord_events : list Chord.t) : list Chord.t :=
  if (length chord_events <=? 2)%nat then chord_events
  else
    let start_time := min_onset chord_events in
    let end_time := max_chord_offset chord_events in
    (* the sign of a binary64 difference is that of the exact one *)
    let duration := end_time - start_time in
    if Qleb duration 0 then chord_events
    else
      let timeline_points :=
        timeline (timeline_fuel start_time end_time) start_time end_time in
      let chord_symbols := map (label_at chord_events) timeline_points in
      if (filter_window <=? length chord_symbols)%nat then
        let smoothed_symbols :=
          map (smoothed_label chord_symbols) (seq 0 (length chord_symbols)) in
        resegment chord_events timeline_points smoothed_symbols end_time
      else chord_events.

(** ** Merging and stability *)

(** [set.union] on pitch-class sets. *)
Definition unionZ (a b : list Z) : list Z :=
  (a ++ filter (fun x => negb (mem_Z x a)) b)%list.

(** The [should_merge] test of [_merge_similar_chords]. *)
Definition should_merge (current next_chord : Chord.t) : bool :=
  let time_gap := Chord.onset next_chord - Chord.offset current in
  let same_chord := String.eqb (Chord.chord_symbol current) (Chord.chord_symbol next_chord) in
  let similar_chord := Z.eqb (Chord.root_pc current) (Chord.root_pc next_chord)
                       && String.eqb (Chord.chord_type current) (Chord.chord_type next_chord) in
  let close_in_time := Qleb time_gap MERGE_THRESHOLD in
  let overlapping := Qltb (Chord.onset next_chord) (Chord.offset current) in
  (same_chord && (close_in_time || overlapping)) || (similar_chord && overlapping).

Definition merge_two (current next_chord : Chord.t) : Chord.t :=
  Chord.mk (Chord.onset current) (Qmax (Chord.offset current) (Chord.offset next_chord))
           (Chord.chord_symbol current)
           ((Chord.confidence current + Chord.confidence next_chord) / 2)
           (unionZ (Chord.pitch_classes current) (Chord.pitch_classes next_chord))
           (Chord.root_pc current) (Chord.chord_type current).

(** The [for next_chord in chords[1:]] loop with its accumulator [current],
    followed by the final [merged.append(current)]. *)
Fixpoint merge_loop (current : Chord.t) (rest : list Chord.t) : list Chord.t :=
  match rest with
  | [] => [current]
  | next_chord :: rest' =>
    if should_merge current next_chord then merge_loop (merge_two current next_chord) rest'
    else current :: merge_loop next_chord rest'
  end.

(** [ChordInferenceEngine._merge_similar_chords] *)
Definition merge_similar_chords (chords : list Chord.t) : list Chord.t :=
  match chords with
  | [] | [_] => chords
  | c :: rest => merge_loop c rest
  end.

(** [ChordInferenceEngine._ensure_stability] *)
Definition ensure_stability (chords : list Chord.t) : list Chord.t :=
  filter (fun c => Qleb MIN_CHORD_DURATION (chord_duration c)) chords.

(** ** The engine ([ChordInferenceEngine.infer_chords]) *)

Definition infer_chords (note_events : list Note.t) : list Chord.t * KeyEstimate :=
  let smoothed_events := smooth_pitch_activity MEDIAN_FILTER_SIZE note_events in
  let filtered_events := filter_short_notes smoothed_events in
  let key_estimate := estimate_key filtered_events true in
  let key_filtered_events := apply_key_filtering filtered_events key_estimate in
  let raw_chords := detect_chords_in_windows key_filtered_events key_estimate in
  let harmony_filtered_chords := apply_harmony_filtering raw_chords key_estimate in
  let smoothed_chords := smooth_chord_progression harmony_filtered_chords in
  let merged_chords := merge_similar_chords smoothed_chords in
  let stable_chords := ensure_stability merged_chords in
  (stable_chords, key_estimate).

(** ** Input conversion ([process_note_events]) *)

(** The Python values a note record's fields can hold (floats are finite). *)
#[warnings="-register-all"]
Inductive PyVal :=
| PyInt (z : Z)
| PyFloat (q : Q)
| PyBool (b : bool)
| PyStr (s : string)
| PyNone
| PyOther (type_name : string) (items : list PyVal).
    (* any other builtin object: a list, tuple, dict or set, with the
       values it holds *)

(** A note record: a dict from field names to values. *)
Definition PyDict : Type := list (string * PyVal).

Inductive PyExc := KeyError | ValueError | TypeError | OverflowError.

Inductive PyResult (A : Type) : Type :=
| Ok (a : A)
| Raise (e : PyExc).
Arguments Ok {A} a.
Arguments Raise {A} e.

Definition bind {A B} (r : PyResult A) (f : A -> PyResult B) : PyResult B :=
  match r with Ok a => f a | Raise e => Raise e end.

Notation "x <- r ;; k" := (bind r (fun x => k)) (at level 61, r at next level, right associativity).

(** [note_dict[key]] *)
Fixpoint getitem (d : PyDict) (key : string) : PyResult PyVal :=
  match d with
  | [] => Raise KeyError
  | (k, v) :: t => if String.eqb k key then Ok v else getitem t key
  end.

(** Ints of at least [2^1024 - 2^970] in absolute value round past the
    largest double: [float()] raises [OverflowError] on them. *)
Definition float_overflow_bound : Z := (2 ^ 1024 - 2 ^ 970)%Z.

(** [int()] of a float truncates toward zero. *)
Definition trunc_Q (q : Q) : Z :=
  if Qleb 0 q then Qfloor q else (- Qfloor (- q))%Z.

(** [str(z)] and [repr(z)] of an int raise [ValueError] when [z] has more
    than [sys.get_int_max_str_digits()] decimal digits, 4300 by default
    (CPython 3.11 and later, and the 3.10.7, 3.9.14 and 3.8.14 releases). *)
Definition int_max_str_digits : Z := 4300.

Definition int_str_raises (z : Z) : bool := (10 ^ int_max_str_digits <=? Z.abs z)%Z.

(** Whether [repr(v)] raises: an int with too many digits, possibly held
    by a container.  The repr of a float, bool, str or [None] never raises. *)
Fixpoint repr_raises (v : PyVal) : bool :=
  match v with
  | PyInt z => int_str_raises z
  | PyOther _ items => existsb repr_raises items
  | _ => false
  end.

(** Whether [repr] of a list or tuple of values raises. *)
Definition seq_repr_raises (vs : list PyVal) : bool := existsb repr_raises vs.

(** Whether [repr(note_dict)] raises: the keys are strings, so exactly when
    the repr of one of its values does. *)
Definition dict_repr_raises (d : PyDict) : bool := existsb (fun kv => repr_raises (snd kv)) d.

Section Conversion.
  (** Python's literal grammar for [float(str)] and [int(str)]: [None]
      where the builtin raises [ValueError]. *)
Variable parse_float_literal : string -> option Q.
Variable parse_int_literal : string -> option Z.

  (** [float(v)] *)
Definition py_float (v : PyVal) : PyResult Q :=
    match v with
    | PyInt z => if (float_overflow_bound <=? Z.abs z)%Z then Raise OverflowError
                 else Ok (inject_Z z)
    | PyFloat q => Ok q
    | PyBool b => Ok (if b then 1 else 0)
    | PyStr s => match parse_float_literal s with Some q => Ok q | None => Raise ValueError end
    | PyNone | PyOther _ _ => Raise TypeError
    end.

  (** [int(v)] *)
Definition py_int (v : PyVal) : PyResult Z :=
    match v with
    | PyInt z => Ok z
    | PyFloat q => Ok (trunc_Q q)
    | PyBool b => Ok (if b then 1%Z else 0%Z)
    | PyStr s => match parse_int_literal s with Some z => Ok z | None => Raise ValueError end
    | PyNone | PyOther _ _ => Raise TypeError
    end.

  (** The body of the [try] block. *)
Definition convert_note (d : PyDict) : PyResult Note.t :=
    o <- (v <- getitem d "onset" ;; py_float v) ;;
    f <- (v <- getitem d "offset" ;; py_float v) ;;
    p <- (v <- getitem d "pitch" ;; py_int v) ;;
    c <- (v <- getitem d "confidence" ;; py_float v) ;;
    Ok (Note.mk o f p c).

  (** [except (KeyError, ValueError, TypeError)] *)
Definition caught (e : PyExc) : bool :=
    match e with KeyError | ValueError | TypeError => true | OverflowError => false end.

  (** The conversion loop: the notes built and the records skipped with a
      warning, or the exception that escapes.  The warning
      [logger.warning(f"Skipping invalid note event {note_dict}: {e}")] is
      formatted inside the [except] clause: when [repr(note_dict)] raises
      [ValueError], that exception escapes the loop ([str(e)] of the caught
      exceptions never raises). *)
Fixpoint convert_all (raw_notes : list PyDict) : PyResult (list Note.t * list PyDict) :=
    match raw_notes with
    | [] => Ok ([], [])
    | d :: t =>
      match convert_note d with
      | Ok n => r <- convert_all t ;; Ok (n :: fst r, snd r)
      | Raise e =>
        if caught e then
          if dict_repr_raises d then Raise ValueError
          else (r <- convert_all t ;; Ok (fst r, d :: snd r))
        else Raise e
      end
    end.

Record ChordDict := mkChordDict {
    cd_onset : Q; cd_offset : Q; cd_chord : string; cd_confidence : Q;
    cd_pitch_classes : list Z }.

  (** [key_info]; [ki_confidence_sq] is the square of ["confidence"]. *)
Record KeyInfo := mkKeyInfo { ki_key : string; ki_mode : string; ki_confidence_sq : Q }.

  (** The result of [process_note_events] with the records it skipped
      (each logged with a warning). *)
Record Output := mkOutput {
    out_chords : list ChordDict; out_key : KeyInfo; out_skipped : list PyDict }.

Definition mode_name (m : Mode) : string :=
    match m with Major => "major" | Minor => "minor" end.

Definition chord_to_dict (c : Chord.t) : ChordDict :=
    mkChordDict (Chord.onset c) (Chord.offset c) (Chord.chord_symbol c)
                (Chord.confidence c) (Chord.pitch_classes c).

  (** [process_note_events] *)
Definition process_note_events (raw_notes : list PyDict) : PyResult Output :=
    r <- convert_all raw_notes ;;
    let '(note_events, skipped) := r in
    match note_events with
    | [] => Ok (mkOutput [] (mkKeyInfo "C" "major" 0) skipped)
    | _ =>
      let '(chord_events, key_estimate) := infer_chords note_events in
      Ok (mkOutput (map chord_to_dict chord_events)
                   (mkKeyInfo (note_name (key_pc key_estimate)) (mode_name (mode key_estimate))
                              (confidence_sq key_estimate))
                   skipped)
    end.
End Conversion.

(** * Vocabulary of the properties *)

(** No adjacent pair of the list satisfies the merge criteria. *)
Fixpoint no_adjacent_merge (l : list Chord.t) : Prop :=
  match l with
  | a :: ((b :: _) as t) => should_merge a b = false /\ no_adjacent_merge t
  | _ => True
  end.

(** Every chord lasts at least [MIN_CHORD_DURATION]. *)
Definition all_stable (l : list Chord.t) : Prop :=
  Forall (fun c => MIN_CHORD_DURATION <= chord_duration c) l.

(** Any two distinct chords of the list do not overlap. *)
Definition pairwise_nonoverlapping (l : list Chord.t) : Prop :=
  ForallOrdPairs (fun a b => Chord.offset a <= Chord.onset b \/ Chord.offset b <= Chord.onset a) l.

(** Onsets strictly increase along the list. *)
Definition onset_sorted (l : list Chord.t) : Prop :=
  StronglySorted Qlt (map Chord.onset l).

(** The per-chord output invariant. *)
Definition chord_ok (c : Chord.t) : Prop :=
  0 <= Chord.confidence c /\ Chord.confidence c <= 1
  /\ MIN_CHORD_DURATION <= Chord.offset c - Chord.onset c
  /\ Chord.onset c < Chord.offset c
  /\ In (Chord.root_pc c) (Chord.pitch_classes c).

(** A chord with the given span, symbol and metadata. *)
Definition mk_chord (on off : Q) (sym : string) (root : Z) (pcs : list Z) (ty : string) (conf : Q)
    : Chord.t :=
  Chord.mk on off sym conf pcs root ty.

(** Default element for [nth] on chord lists. *)
Definition default_chord : Chord.t := Chord.mk 0 0 "" 0 [] 0 "".

(** A note record with the four fields. *)
Definition record (onset offset pitch confidence : PyVal) : PyDict :=
  [("onset", onset); ("offset", offset); ("pitch", pitch); ("confidence", confidence)]%string.

(** Confidence in [0, 1] and root among the pitch classes. *)
Definition chord_meta_ok (c : Chord.t) : Prop :=
  0 <= Chord.confidence c /\ Chord.confidence c <= 1
  /\ In (Chord.root_pc c) (Chord.pitch_classes c).

Definition note_ok (n : Note.t) : Prop := 0 <= Note.confidence n.

(** The (root, shape) pairs in the order the two nested loops of
    [_identify_chord] visit them: roots in the order of the given list,
    shapes in table order. *)
Definition chord_candidates (pitch_classes : list Z) : list (Z * ChordTest) :=
  flat_map (fun root => map (fun t => (root, t)) chord_tests) pitch_classes.

Definition candidate_score (pitch_classes : list Z) (ke : KeyEstimate)
    (pc_weights : list (Z * Q)) (rt : Z * ChordTest) : option Q :=
  chord_score pitch_classes ke pc_weights (fst rt) (snd rt).

(** The result of the [else] branch of [if best_match:]. *)
Definition fallback_chord (pitch_classes : list Z) : string * string :=
  ((note_name (minZ pitch_classes) ++ "?")%string, "unknown"%string).

(** A possibly absent score is below [b] (resp. at most [b]). *)
Definition score_below (sc : option Q) (b : Q) : Prop :=
  match sc with Some s => s < b | None => True end.

Definition score_at_most (sc : option Q) (b : Q) : Prop :=
  match sc with Some s => s <= b | None => True end.

Definition score_at_mostb (sc : option Q) (b : Q) : bool :=
  match sc with Some s => Qleb s b | None => true end.

Section Scan.
Context {A B : Type} (sc : A -> option Q) (out : A -> B).

(** One iteration of a strict-improvement arg-max scan:
    [if score > best_score: best_score = score; best_match = out(a)]. *)
Definition scan_step (st : Q * option B) (a : A) : Q * option B :=
  match sc a with
  | Some s => if Qltb (fst st) s then (s, Some (out a)) else st
  | None => st
  end.

End Scan.

(** Pitch classes with two equally strong candidate roots, listed in the
    order [_analyze_window] produces (weight descending, ties in insertion
    order). *)
Definition tie_pcs : list Z := [9; 5; 1]%Z.
Definition tie_weights : list (Z * Q) := [(9%Z, 2); (5%Z, 2); (1%Z, 0.5)].
Definition tie_key : KeyEstimate := mkKey 0 Major 0.
Definition aug_test : ChordTest := mkTest [0; 4; 8]%Z "aug" "aug" 9.

(** The 24 key candidates in the order [estimate_key] tests them: roots
    0 to 11, major before minor at each root. *)
Definition key_candidates : list (nat * Mode) :=
  flat_map (fun r => [(r, Major); (r, Minor)]) (seq 0 12).

Definition key_profile (m : Mode) : list Q :=
  match m with Major => major_profile | Minor => minor_profile end.

(** The (signed-square) correlation of a candidate with the weights. *)
Definition key_correlation (pc_weights : list Q) (c : nat * Mode) : Q :=
  correlate_with_profile pc_weights (fst c) (key_profile (snd c)).

(** The normalised histogram [estimate_key] correlates with the profiles. *)
Definition key_weights (note_events : list Note.t) (exclude_short_notes : bool) : list Q :=
  let h := key_histogram note_events exclude_short_notes in
  map (fun x => Qred (x / sumQ h)) h.

(** The median of three values. *)
Definition median3 (a b c : Q) : Q := Qmax (Qmin a b) (Qmin (Qmax a b) c).

(** A centred 3-point median filter whose window reads [left] before the
    first element and [right] after the last one. *)
Definition median3_filter (left right : Q) (xs : list Q) : list Q :=
  let p := (left :: xs ++ [right])%list in
  map (fun i => median3 (nth i p 0) (nth (S i) p 0) (nth (S (S i)) p 0))
      (seq 0 (length xs)).

Definition with_confidence (n : Note.t) (c : Q) : Note.t :=
  Note.mk (Note.onset n) (Note.offset n) (Note.pitch n) c.

(** The boundary values of the median window: zeros, or the first and last
    values repeated (edge replication). *)
Definition zero_pad (cs : list Q) : Q * Q := (0, 0).
Definition edge_pad (cs : list Q) : Q * Q := (hd 0 cs, last cs 0).

(** The notes of one pitch class after smoothing with window 3: groups of
    at most one note unchanged, groups of two sorted by onset, larger groups
    sorted by onset with their confidences median-filtered. *)
Definition smoothed_class (pad : list Q -> Q * Q) (g : list Note.t) : list Note.t :=
  if (length g <=? 1)%nat then g
  else
    let s := sort_by Note.onset g in
    if (length s <? 3)%nat then s
    else
      let cs := map Note.confidence s in
      map (fun nc => with_confidence (fst nc) (snd nc))
          (combine s (median3_filter (fst (pad cs)) (snd (pad cs)) cs)).

Definition of_class (p : Z) (n : Note.t) : bool := Z.eqb (Note.pitch_class n) p.

(** A note with its confidence in lowest terms (equal rationals, equal
    representation). *)
Definition note_repr (n : Note.t) : Q * Q * Z * Q :=
  (Note.onset n, Note.offset n, Note.pitch n, Qred (Note.confidence n)).

(** [pc_events[pc]] (the empty list for a missing key). *)
Fixpoint lookup_group (p : Z) (g : list (Z * list Note.t)) : list Note.t :=
  match g with
  | [] => []
  | (k, ns) :: t => if Z.eqb k p then ns else lookup_group p t
  end.

(** Three notes of one pitch class whose first confidence is the largest. *)
Definition boundary_notes : list Note.t :=
  [Note.mk 0 1 60 0.9; Note.mk 1 2 60 0.5; Note.mk 2 3 60 0.5].

(** ** The server's use of the pipeline ([main.py, analyze_audio]) *)

(** The exceptions caught by the note conversion loop of [analyze_audio]:
    [except (IndexError, ValueError, TypeError)].  An [IndexError] cannot
    occur there: [note[0]] to [note[3]] are read only after the check
    [len(note) >= 4], and no dict is indexed. *)
Definition server_caught (e : PyExc) : bool :=
  match e with ValueError | TypeError => true | KeyError | OverflowError => false end.

Section Server.
Variable parse_float_literal : string -> option Q.
Variable parse_int_literal : string -> option Z.

(** The body of the [try] block for one Basic Pitch note event, a sequence
    [(start, end, pitch, amplitude, ...)]: [None] when the event is passed
    over by a [continue] (too short, or starting after the original audio
    ended); the offset is clipped to [original_duration].  A too short event
    is first logged with [logger.warning(f"Note {i} has insufficient data:
    {note}")], which raises [ValueError] when [repr(note)] does. *)
Definition convert_event (original_duration : Q) (note : list PyVal)
    : PyResult (option Note.t) :=
  match note with
  | v0 :: v1 :: v2 :: v3 :: _ =>
    onset_time <- py_float parse_float_literal v0 ;;
    offset_time <- py_float parse_float_literal v1 ;;
    if Qleb original_duration onset_time then Ok None
    else
      let offset_time :=
        if Qltb original_duration offset_time then original_duration else offset_time in
      pitch <- py_int parse_int_literal v2 ;;
      confidence <- py_float parse_float_literal v3 ;;
      Ok (Some (Note.mk onset_time offset_time pitch confidence))
  | _ => if seq_repr_raises note then Raise ValueError else Ok None
  end.

(** The [for i, note in enumerate(note_events)] loop building [json_notes];
    an exception it does not catch propagates to the handler that answers
    with HTTP 500.  The [except] clause logs
    [f"Failed to process note {i}: {note}, error: {e}"], which raises
    [ValueError] out of the loop when [repr(note)] does. *)
Fixpoint convert_events (original_duration : Q) (note_events : list (list PyVal))
    : PyResult (list Note.t) :=
  match note_events with
  | [] => Ok []
  | note :: t =>
    match convert_event original_duration note with
    | Ok (Some n) => r <- convert_events original_duration t ;; Ok (n :: r)
    | Ok None => convert_events original_duration t
    | Raise e =>
      if server_caught e then
        if seq_repr_raises note then Raise ValueError
        else convert_events original_duration t
      else Raise e
    end
  end.

(** The dict built for each entry of [json_notes]
    ([note_dicts.append({...})]); the fields of the pydantic [NoteEvent]
    are a float, a float, an int and a float. *)
Definition note_to_dict (n : Note.t) : PyDict :=
  record (PyFloat (Note.onset n)) (PyFloat (Note.offset n)) (PyInt (Note.pitch n))
         (PyFloat (Note.confidence n)).

(** The chord inference block of [analyze_audio]:
    [process_note_events(note_dicts)] with its [except Exception] fallback
    to no chords and the key C major with confidence 0. *)
Definition server_chords (json_notes : list Note.t) : list ChordDict * KeyInfo :=
  match process_note_events parse_float_literal parse_int_literal
          (map note_to_dict json_notes) with
  | Ok o => (out_chords o, out_key o)
  | Raise _ => ([], mkKeyInfo "C" "major" 0)
  end.
End Server.

(** ** Vocabulary of the further properties *)

(** The part of a note the pitch smoother never changes. *)
Definition note_key (n : Note.t) : Q * Q * Z := (Note.onset n, Note.offset n, Note.pitch n).

(** The chord types [_identify_chord] can return. *)
Definition chord_types : list string := (map test_type chord_tests ++ ["unknown"%string])%list.

(** A Python set of pitch classes: no duplicates, every element in [0, 12). *)
Definition pc_set_ok (pcs : list Z) : Prop :=
  NoDup pcs /\ Forall (fun p => 0 <= p < 12)%Z pcs.

(** The shape of a chord produced by [_analyze_window]. *)
Definition raw_chord_ok (c : Chord.t) : Prop :=
  Chord.offset c = Chord.onset c + WINDOW_SIZE
  /\ pc_set_ok (Chord.pitch_classes c)
  /\ (2 <= length (Chord.pitch_classes c) <= 6)%nat
  /\ Chord.root_pc c = minZ (Chord.pitch_classes c)
  /\ In (Chord.chord_type c) chord_types.

(** The pitch-class set and type of an output chord. *)
Definition chord_shape_ok (c : Chord.t) : Prop :=
  pc_set_ok (Chord.pitch_classes c)
  /\ (2 <= length (Chord.pitch_classes c))%nat
  /\ In (Chord.chord_type c) chord_types.

(** [c] carries the symbol, confidence, pitch classes, root and type of
    some chord of [ce]. *)
Definition copied_from (ce : list Chord.t) (c : Chord.t) : Prop :=
  exists o, In o ce
    /\ Chord.chord_symbol o = Chord.chord_symbol c
    /\ Chord.confidence o = Chord.confidence c
    /\ Chord.pitch_classes o = Chord.pitch_classes c
    /\ Chord.root_pc o = Chord.root_pc c
    /\ Chord.chord_type o = Chord.chord_type c.





(** No literal parser: every string field is rejected. *)
Definition no_float_literal (s : string) : option Q := None.
Definition no_int_literal (s : string) : option Z := None.

(** The invariant of the chord identifier's loop state: a recorded match
    carries the type of a row of the table. *)
Definition id_state_ok (st : id_state) : Prop :=
  match snd st with
  | Some (_, ty, _) => In ty (map test_type chord_tests)
  | None => True
  end.

(** [c]'s time span lies within the span of some chord of [out]. *)
Definition covered_by (out : list Chord.t) (c : Chord.t) : Prop :=
  exists m, In m out /\ Chord.onset m <= Chord.onset c /\ Chord.offset c <= Chord.offset m.

(** Example inputs. *)
Definition confident_chord : Chord.t := mk_chord 0 2 "D" 2 [2; 6; 9]%Z "major" 0.8.
Definition silent_notes : list Note.t := [Note.mk 0 1 60 0; Note.mk 0 2 64 0].
Definition short_notes : list Note.t := [Note.mk 0 0.05 60 1; Note.mk 1 1.02 67 0.5].
Definition overlapping_chords : list Chord.t :=
  [mk_chord 0 2 "C" 0 [0; 4; 7]%Z "major" 0.9; mk_chord 1.8 3.8 "C" 0 [0; 4; 7]%Z "major" 0.7].
Definition server_events : list (list PyVal) :=
  [[PyFloat 0; PyFloat 5; PyInt 60; PyFloat 0.8];
   [PyFloat 4; PyFloat 5; PyInt 64; PyFloat 0.9];
   [PyFloat 1]].

(** * Properties *)

(** ** Comparison helpers *)

Lemma Qleb_iff (a b : Q) : Qleb a b = true <-> a <= b.
Proof. apply Qle_bool_iff. Qed.

Lemma Qltb_iff (a b : Q) : Qltb a b = true <-> a < b.
Proof.
  unfold Qltb. rewrite negb_true_iff. split; intro H.
  - apply Qnot_le_lt. intro H'. apply Qle_bool_iff in H'. congruence.
  - destruct (Qle_bool b a) eqn:E; [|reflexivity].
    apply Qle_bool_iff in E. exfalso. exact (Qlt_not_le _ _ H E).
Qed.

Lemma Qltb_false (a b : Q) : Qltb a b = false <-> b <= a.
Proof.
  unfold Qltb. rewrite negb_false_iff. apply Qle_bool_iff.
Qed.

Lemma Qleb_false (a b : Q) : Qleb a b = false <-> b < a.
Proof.
  split; intro H.
  - apply Qnot_le_lt. intro H'. apply Qleb_iff in H'. congruence.
  - destruct (Qleb a b) eqn:E; [|reflexivity].
    apply Qleb_iff in E. exfalso. exact (Qlt_not_le _ _ H E).
Qed.

(** Closes a comparison between two concrete rationals. *)
Ltac qdecide :=
  first [ apply Qleb_iff; vm_compute; reflexivity
        | apply Qltb_iff; vm_compute; reflexivity
        | vm_compute; reflexivity ].

(** ** Merging and stability on merged, stable lists *)

Lemma merge_loop_no_merge (rest : list Chord.t) :
  forall c, no_adjacent_merge (c :: rest) -> merge_loop c rest = c :: rest.
Proof.
  induction rest as [|n rest IH]; intros c H; simpl in *.
  - reflexivity.
  - destruct H as [H1 H2]. rewrite H1. f_equal. apply IH. exact H2.
Qed.

Lemma ensure_stability_stable (l : list Chord.t) : all_stable l -> ensure_stability l = l.
Proof.
  unfold all_stable. induction 1 as [|c l Hc _ IH].
  - reflexivity.
  - change (ensure_stability (c :: l))
      with (if Qleb MIN_CHORD_DURATION (chord_duration c) then c :: ensure_stability l
            else ensure_stability l).
    apply Qleb_iff in Hc. rewrite Hc, IH. reflexivity.
Qed.

(** C9: re-running the merger and the stability filter on a list that is
    already merged (no adjacent pair satisfies the merge criteria) and
    already stable (every chord lasts at least 0.3 s) returns the list
    unchanged. *)
Theorem merge_then_stability_idempotent (l : list Chord.t) :
  no_adjacent_merge l -> all_stable l -> ensure_stability (merge_similar_chords l) = l.
Proof.
  intros Hm Hs.
  assert (Hmerge : merge_similar_chords l = l).
  { destruct l as [|c [|d t]]; try reflexivity.
    apply merge_loop_no_merge. exact Hm. }
  rewrite Hmerge. apply ensure_stability_stable. exact Hs.
Qed.

Definition merged_stable_example : list Chord.t :=
  [mk_chord 0 1 "C" 0 [0; 4; 7]%Z "major" 0.9;
   mk_chord 2 3 "D" 2 [2; 6; 9]%Z "major" 0.8]%string.

Lemma merge_then_stability_idempotent_witness :
  (no_adjacent_merge merged_stable_example /\ all_stable merged_stable_example)
  /\ ensure_stability (merge_similar_chords merged_stable_example) = merged_stable_example.
Proof.
  assert (Hm : no_adjacent_merge merged_stable_example).
  { simpl. split; [vm_compute; reflexivity | exact I]. }
  assert (Hs : all_stable merged_stable_example).
  { unfold all_stable, merged_stable_example.
    repeat constructor; apply Qleb_iff; vm_compute; reflexivity. }
  split; [split; assumption|].
  apply merge_then_stability_idempotent; assumption.
Defined.

(** ** Window smoother pass-through on short spans *)












(** ** Window smoother re-segmentation of the last run *)

Definition repeated_chord_input : list Chord.t :=
  [mk_chord 0 1 "C" 0 [0; 4; 7]%Z "major" 0.9;
   mk_chord 1 2 "C" 0 [0; 4; 7]%Z "major" 0.9;
   mk_chord 2 3 "C" 0 [0; 4; 7]%Z "major" 0.9]%string.

(** C7: evaluation at the failing input.  Three consecutive "C" chords
    covering [0,3) give the labels C C C C C C N on the grid 0, 0.5, ...,
    3.0, all smoothed to C: one maximal run.  The smoother emits two "C"
    chords, [0, 3.0] and [3.0, 3.0], because the iteration at the last
    index closes the run and the final hand-off emits it again. *)
Theorem window_smoother_splits_last_run :
  let out := smooth_chord_progression repeated_chord_input in
  map Chord.chord_symbol out = ["C"; "C"]%string
  /\ Chord.onset (nth 0 out default_chord) == 0
  /\ Chord.offset (nth 0 out default_chord) == 3
  /\ Chord.onset (nth 1 out default_chord) == 3
  /\ Chord.offset (nth 1 out default_chord) == 3.
Proof. vm_compute. repeat split; reflexivity. Qed.

(** ** Uncaught conversion errors in [process_note_events] *)

(** An int onset with 401 digits: [float()] raises [OverflowError]. *)
Definition huge_int : Z := (10 ^ 400)%Z.

Definition valid_record : PyDict :=
  record (PyFloat 0) (PyFloat 2) (PyInt 60) (PyFloat 0.9).

Definition overflow_record : PyDict :=
  record (PyInt huge_int) (PyFloat 2) (PyInt 64) (PyFloat 0.9).

(** C3: evaluation at the failing input.  A batch of two note dicts, the
    second with an int onset too large for a float, makes
    [process_note_events] raise [OverflowError] (whatever the literal
    parsers), which the [except (KeyError, ValueError, TypeError)] clause
    does not catch. *)
Theorem process_note_events_raises_overflow
    (parse_float_literal : string -> option Q) (parse_int_literal : string -> option Z) :
  process_note_events parse_float_literal parse_int_literal [valid_record; overflow_record]
  = Raise OverflowError.
Proof. vm_compute. reflexivity. Qed.

(** C8: evaluation at the failing input.  A batch whose only record is
    invalid (its onset cannot be converted to a float) does not yield the
    default result: the record is not skipped and [OverflowError] aborts
    the batch. *)
Theorem process_note_events_invalid_only_aborts
    (parse_float_literal : string -> option Q) (parse_int_literal : string -> option Z) :
  process_note_events parse_float_literal parse_int_literal [overflow_record]
  = Raise OverflowError.
Proof. vm_compute. reflexivity. Qed.

(** ** Onset order of the final chord list *)

Lemma StronglySorted_map_filter {A} (f : A -> Q) (p : A -> bool) (l : list A) :
  StronglySorted Qlt (map f l) -> StronglySorted Qlt (map f (filter p l)).
Proof.
  induction l as [|a l IH]; simpl; intros H; [constructor|].
  apply StronglySorted_inv in H as [H1 H2].
  destruct (p a); simpl; [constructor|]; auto.
  rewrite Forall_forall in H2 |- *. intros x Hx.
  apply in_map_iff in Hx as [y [Hy Hin]]. apply filter_In in Hin as [Hin _].
  apply H2. subst x. apply in_map. exact Hin.
Qed.

Lemma StronglySorted_app_l (l1 l2 : list Q) :
  StronglySorted Qlt (l1 ++ l2) -> StronglySorted Qlt l1.
Proof.
  induction l1 as [|a l1 IH]; simpl; intros H; [constructor|].
  apply StronglySorted_inv in H as [H1 H2]. constructor; auto.
  rewrite Forall_forall in H2 |- *. intros x Hx. apply H2, in_or_app. left. exact Hx.
Qed.

Lemma analyze_window_onset (notes : list Note.t) (s e : Q) (ke : KeyEstimate) (c : Chord.t) :
  analyze_window notes s e ke = Some c -> Chord.onset c = s.
Proof.
  unfold analyze_window. destruct notes; [discriminate|].
  destruct (window_histogram _ s e); [discriminate|].
  destruct (_ <? _)%nat; [discriminate|].
  destruct (identify_chord _ _ _). intros H. inversion H. reflexivity.
Qed.

Lemma window_loop_sorted (fuel : nat) (se : list Note.t) (ke : KeyEstimate) :
  forall cur e,
    StronglySorted Qlt (map Chord.onset (window_loop fuel se ke cur e))
    /\ Forall (fun c => cur <= Chord.onset c) (window_loop fuel se ke cur e).
Proof.
  induction fuel as [|fuel IH]; intros cur e; simpl; [split; constructor|].
  destruct (Qltb cur e); [|split; constructor].
  destruct (IH (cur + (WINDOW_SIZE - WINDOW_OVERLAP)) e) as [Hs Hf].
  assert (Hstep : cur < cur + (WINDOW_SIZE - WINDOW_OVERLAP))
    by (unfold WINDOW_SIZE, WINDOW_OVERLAP; lra).
  assert (Hf' : Forall (fun c => cur < Chord.onset c)
                  (window_loop fuel se ke (cur + (WINDOW_SIZE - WINDOW_OVERLAP)) e)).
  { eapply Forall_impl; [|exact Hf]. intros c Hc. simpl in Hc. lra. }
  match goal with
  | |- context [match ?x with Some c => _ | None => _ end] => destruct x as [c|] eqn:Ec
  end.
  - assert (Hc : Chord.onset c = cur).
    { match type of Ec with
      | (if ?b then _ else None) = _ => destruct b; [|discriminate]
      end.
      eapply analyze_window_onset. exact Ec. }
    simpl. split.
    + constructor; [exact Hs|]. rewrite Hc, Forall_map. exact Hf'.
    + constructor; [rewrite Hc; apply Qle_refl|].
      eapply Forall_impl; [|exact Hf']. intros x Hx. apply Qlt_le_weak. exact Hx.
  - split; [exact Hs|]. eapply Forall_impl; [|exact Hf'].
    intros x Hx. apply Qlt_le_weak. exact Hx.
Qed.

Lemma detect_chords_sorted (events : list Note.t) (ke : KeyEstimate) :
  onset_sorted (detect_chords_in_windows events ke).
Proof.
  unfold onset_sorted, detect_chords_in_windows. destruct events; [constructor|].
  apply window_loop_sorted.
Qed.

Lemma harmony_filter_sorted (chords : list Chord.t) (ke : KeyEstimate) :
  onset_sorted chords -> onset_sorted (apply_harmony_filtering chords ke).
Proof. apply StronglySorted_map_filter. Qed.

Lemma ensure_stability_sorted (chords : list Chord.t) :
  onset_sorted chords -> onset_sorted (ensure_stability chords).
Proof. apply StronglySorted_map_filter. Qed.

Lemma timeline_sorted (n : nat) :
  forall a b, StronglySorted Qlt (timeline n a b) /\ Forall (fun p => a <= p) (timeline n a b).
Proof.
  induction n as [|n IH]; intros a b; cbn [timeline]; [split; constructor|].
  destruct (Qleb a b); [|split; constructor].
  destruct (Qltb a (fadd a timeline_resolution)) eqn:Ea;
    [|split; [repeat constructor | constructor; [apply Qle_refl | constructor]]].
  apply Qltb_iff in Ea.
  destruct (IH (fadd a timeline_resolution) b) as [Hs Hf].
  assert (Hf' : Forall (fun p => a < p) (timeline n (fadd a timeline_resolution) b)).
  { eapply Forall_impl; [|exact Hf]. intros p Hp. cbv beta in Hp. lra. }
  split.
  - constructor; assumption.
  - constructor; [apply Qle_refl|].
    eapply Forall_impl; [|exact Hf']. intros p Hp. apply Qlt_le_weak. exact Hp.
Qed.

Lemma combine_fst_sorted {B} (ps : list Q) (ss : list B) :
  StronglySorted Qlt ps -> StronglySorted Qlt (map fst (combine ps ss)).
Proof.
  revert ss. induction ps as [|p ps IH]; intros ss H; [constructor|].
  destruct ss as [|s ss]; [constructor|]. simpl.
  apply StronglySorted_inv in H as [H1 H2]. constructor; [apply IH; exact H1|].
  rewrite Forall_forall in H2 |- *. intros x Hx.
  apply in_map_iff in Hx as [[x' y'] [Hxy Hin]]. simpl in Hxy. subst x.
  apply H2. eapply in_combine_l. exact Hin.
Qed.

Lemma emit_run_onset (ce : list Chord.t) (sym : string) (on off : Q) :
  emit_run ce sym on off = [] \/ exists c, emit_run ce sym on off = [c] /\ Chord.onset c = on.
Proof.
  unfold emit_run. destruct (String.eqb sym "N"); [left; reflexivity|].
  destruct (find_original ce sym); [right; eexists; split; reflexivity | left; reflexivity].
Qed.

Lemma reseg_loop_sorted (ce : list Chord.t) (rest : list (Q * string)) :
  forall sym start prev,
    StronglySorted Qlt (map fst rest) -> Forall (fun p => start < p) (map fst rest) ->
    let '(out, (_, st)) := reseg_loop ce rest sym start prev in
    StronglySorted Qlt (map Chord.onset out ++ [st]) /\ start <= st
    /\ Forall (fun c => start <= Chord.onset c) out.
Proof.
  induction rest as [|[p s] rest IH]; intros sym start prev Hs Hf; simpl.
  - split; [repeat constructor | split; [apply Qle_refl | constructor]].
  - simpl in Hs, Hf. apply StronglySorted_inv in Hs as [Hs1 Hs2].
    apply Forall_cons_iff in Hf as [Hp Hf].
    destruct (negb (String.eqb s sym) || match rest with [] => true | _ => false end).
    + specialize (IH s p p Hs1 Hs2).
      destruct (reseg_loop ce rest s p p) as [out [sym' st]].
      destruct IH as [IH1 [IH2 IH3]].
      assert (Hout : Forall (fun c => start < Chord.onset c) out).
      { eapply Forall_impl; [|exact IH3]. intros c Hc. simpl in Hc. lra. }
      assert (Hst : start < st) by lra.
      assert (Hall : Forall (Qlt start) (map Chord.onset out ++ [st])).
      { apply Forall_app. split; [rewrite Forall_map; exact Hout | constructor; auto]. }
      destruct (emit_run_onset ce sym start (fadd prev timeline_resolution)) as [E|[c [E Ec]]];
        rewrite E; simpl.
      * split; [exact IH1|]. split; [lra|].
        eapply Forall_impl; [|exact Hout]. intros x Hx. apply Qlt_le_weak. exact Hx.
      * rewrite Ec. split; [constructor; assumption|]. split; [lra|].
        constructor; [rewrite Ec; apply Qle_refl|].
        eapply Forall_impl; [|exact Hout]. intros x Hx. apply Qlt_le_weak. exact Hx.
    + apply IH; [exact Hs1 | exact Hf].
Qed.

Lemma resegment_sorted (ce : list Chord.t) (ps : list Q) (ss : list string) (e : Q) :
  StronglySorted Qlt ps -> onset_sorted (resegment ce ps ss e).
Proof.
  intros Hps. unfold onset_sorted, resegment.
  pose proof (combine_fst_sorted ps ss Hps) as Hc.
  destruct (combine ps ss) as [|[p0 s0] rest]; [constructor|].
  simpl in Hc. apply StronglySorted_inv in Hc as [Hc1 Hc2].
  pose proof (reseg_loop_sorted ce rest s0 p0 p0 Hc1 Hc2) as H.
  destruct (reseg_loop ce rest s0 p0 p0) as [out [sym st]].
  destruct H as [H1 _].
  destruct (emit_run_onset ce sym st e) as [E|[c [E Ec]]]; rewrite E, map_app.
  - rewrite app_nil_r. eapply StronglySorted_app_l. exact H1.
  - simpl. rewrite Ec. exact H1.
Qed.

Lemma smooth_chord_progression_sorted (chords : list Chord.t) :
  onset_sorted chords -> onset_sorted (smooth_chord_progression chords).
Proof.
  intros H. unfold smooth_chord_progression.
  destruct (length chords <=? 2)%nat; [exact H|].
  destruct (Qleb _ 0); [exact H|].
  destruct (filter_window <=? _)%nat; [|exact H].
  apply resegment_sorted. apply timeline_sorted.
Qed.

Lemma merge_loop_sorted (rest : list Chord.t) :
  forall c, StronglySorted Qlt (map Chord.onset (c :: rest)) ->
    StronglySorted Qlt (map Chord.onset (merge_loop c rest))
    /\ Forall (fun x => Chord.onset c <= Chord.onset x) (merge_loop c rest).
Proof.
  induction rest as [|n rest IH]; intros c H; simpl.
  - split; [repeat constructor | constructor; [apply Qle_refl | constructor]].
  - simpl in H. apply StronglySorted_inv in H as [H1 H2].
    apply StronglySorted_inv in H1 as [H3 H4].
    apply Forall_cons_iff in H2 as [Hcn H2].
    destruct (should_merge c n).
    + apply (IH (merge_two c n)). simpl. constructor; assumption.
    + destruct (IH n) as [IH1 IH2]; [constructor; assumption|].
      split.
      * simpl. constructor; [exact IH1|].
        rewrite Forall_map. eapply Forall_impl; [|exact IH2].
        intros x Hx. simpl in Hx. lra.
      * constructor; [apply Qle_refl|].
        eapply Forall_impl; [|exact IH2]. intros x Hx. simpl in Hx. lra.
Qed.

Lemma merge_similar_chords_sorted (chords : list Chord.t) :
  onset_sorted chords -> onset_sorted (merge_similar_chords chords).
Proof.
  unfold onset_sorted. intros H. destruct chords as [|c [|d t]]; try exact H.
  apply merge_loop_sorted. exact H.
Qed.

(** C2 (as amended): the final chord list of the engine is sorted by
    strictly increasing onset. *)
Theorem infer_chords_onset_sorted (note_events : list Note.t) :
  onset_sorted (fst (infer_chords note_events)).
Proof.
  unfold infer_chords. simpl fst.
  apply ensure_stability_sorted, merge_similar_chords_sorted,
        smooth_chord_progression_sorted, harmony_filter_sorted, detect_chords_sorted.
Qed.

(** C major on [0, 1.8] and D major on [1.8, 3.6], all at confidence 1. *)
Definition two_window_input : list Note.t :=
  [Note.mk 0 1.8 60 1; Note.mk 0 1.8 64 1; Note.mk 0 1.8 67 1;
   Note.mk 1.8 3.6 62 1; Note.mk 1.8 3.6 66 1; Note.mk 1.8 3.6 69 1].

(** C2: counterexample.  The two detection windows [0, 2) and [1.8, 3.8)
    overlap by 0.2 s, yield "C" and "D", both survive the harmony filter,
    the window smoother passes two chords through, and the merger keeps
    them apart: the final chords C [0, 2) and D [1.8, 3.8) overlap. *)
Lemma final_chords_can_overlap :
  ~ pairwise_nonoverlapping (fst (infer_chords two_window_input)).
Proof.
  unfold pairwise_nonoverlapping. intro H.
  remember (fst (infer_chords two_window_input)) as out eqn:E.
  vm_compute in E. subst out.
  inversion H as [|a l Hall Hrest]; subst.
  inversion Hall as [|b l' Hab]; subst.
  destruct Hab as [Hab|Hab]; vm_compute in Hab; apply Hab; reflexivity.
Qed.

(** ** Per-chord invariants of the final chord list *)

Lemma Forall_filter {A} (P : A -> Prop) (f : A -> bool) (l : list A) :
  Forall P l -> Forall P (filter f l).
Proof.
  rewrite !Forall_forall. intros H x Hx. apply filter_In in Hx as [Hx _]. auto.
Qed.

Lemma Forall_nth_default {A} (P : A -> Prop) (l : list A) (d : A) (i : nat) :
  Forall P l -> P d -> P (nth i l d).
Proof.
  intros H Hd. destruct (Nat.lt_ge_cases i (length l)) as [Hi|Hi].
  - rewrite Forall_forall in H. apply H, nth_In, Hi.
  - rewrite nth_overflow by exact Hi. exact Hd.
Qed.

Lemma insert_by_Forall {A} (P : A -> Prop) (key : A -> Q) (x : A) (l : list A) :
  P x -> Forall P l -> Forall P (insert_by key x l).
Proof.
  intros Hx. induction 1 as [|y l Hy Hl IH]; simpl; [repeat constructor; auto|].
  destruct (Qleb (key y) (key x)); repeat constructor; auto.
Qed.

Lemma sort_by_Forall {A} (P : A -> Prop) (key : A -> Q) (l : list A) :
  Forall P l -> Forall P (sort_by key l).
Proof.
  unfold sort_by. assert (Hacc : Forall P (@nil A)) by constructor. revert Hacc.
  generalize (@nil A) as acc. induction l as [|x l IH]; intros acc Hacc H; simpl; [exact Hacc|].
  apply Forall_cons_iff in H as [Hx H]. apply IH; [apply insert_by_Forall|]; assumption.
Qed.

Lemma Forall_firstn_skipn {A} (P : A -> Prop) (l : list A) (i k : nat) :
  Forall P l -> Forall P (firstn k (skipn i l)).
Proof.
  intros H. rewrite Forall_forall in H |- *. intros x Hx. apply H.
  rewrite <- (firstn_skipn i l). apply in_or_app. right.
  rewrite <- (firstn_skipn k (skipn i l)). apply in_or_app. left. exact Hx.
Qed.

Lemma medfilt_nonneg (k : nat) (xs : list Q) :
  Forall (Qle 0) xs -> Forall (Qle 0) (medfilt k xs).
Proof.
  intros H. unfold medfilt. rewrite Forall_forall. intros y Hy.
  apply in_map_iff in Hy as [i [Hi _]]. subst y.
  apply Forall_nth_default; [|apply Qle_refl].
  apply sort_by_Forall, Forall_firstn_skipn.
  assert (Hz : Forall (Qle 0) (repeat 0 (Nat.div k 2))).
  { rewrite Forall_forall. intros z Hz. apply repeat_spec in Hz. subst z. apply Qle_refl. }
  apply Forall_app; split; [exact Hz|]. apply Forall_app; split; assumption.
Qed.

Lemma smooth_group_ok (k : nat) (events : list Note.t) :
  Forall note_ok events -> Forall note_ok (smooth_group k events).
Proof.
  intros H. unfold smooth_group.
  destruct (length events <=? 1)%nat; [exact H|].
  pose proof (sort_by_Forall _ Note.onset events H) as Hs.
  destruct (k <=? _)%nat; [|exact Hs].
  assert (Hc : Forall (Qle 0) (medfilt k (map Note.confidence (sort_by Note.onset events)))).
  { apply medfilt_nonneg. rewrite Forall_map. exact Hs. }
  rewrite Forall_forall in Hc |- *. intros x Hx.
  apply in_map_iff in Hx as [[e c] [Hx Hin]]. subst x. unfold note_ok. simpl.
  apply Hc. eapply in_combine_r. exact Hin.
Qed.

Lemma group_add_ok (pc : Z) (n : Note.t) (g : list (Z * list Note.t)) :
  note_ok n -> Forall (fun ge => Forall note_ok (snd ge)) g ->
  Forall (fun ge => Forall note_ok (snd ge)) (group_add pc n g).
Proof.
  intros Hn. induction 1 as [|[k ns] g Hk Hg IH]; simpl; [repeat constructor; auto|].
  destruct (Z.eqb k pc); constructor; auto.
  simpl. apply Forall_app. split; [exact Hk | constructor; auto].
Qed.

Lemma group_by_pc_ok (notes : list Note.t) :
  Forall note_ok notes -> Forall (fun ge => Forall note_ok (snd ge)) (group_by_pc notes).
Proof.
  unfold group_by_pc.
  assert (Hacc : Forall (fun ge : Z * list Note.t => Forall note_ok (snd ge)) []) by constructor.
  revert Hacc. generalize (@nil (Z * list Note.t)) as g.
  induction notes as [|n notes IH]; intros g Hg H; simpl; [exact Hg|].
  apply Forall_cons_iff in H as [Hn H]. apply IH; [apply group_add_ok|]; assumption.
Qed.

Lemma smooth_pitch_activity_ok (k : nat) (notes : list Note.t) :
  Forall note_ok notes -> Forall note_ok (smooth_pitch_activity k notes).
Proof.
  intros H. unfold smooth_pitch_activity. destruct notes as [|n t]; [constructor|].
  apply Forall_flat_map. eapply Forall_impl; [|apply group_by_pc_ok; exact H].
  intros ge Hge. apply smooth_group_ok. exact Hge.
Qed.

Lemma minZ_In (l : list Z) : l <> [] -> In (minZ l) l.
Proof.
  destruct l as [|x t]; [congruence|]. intros _. simpl. revert x.
  induction t as [|y t IH]; intros x; simpl; [left; reflexivity|].
  specialize (IH (Z.min x y)). revert IH.
  generalize (fold_left Z.min t (Z.min x y)) as f. intros f [E|E].
  - destruct (Z.min_dec x y) as [M|M]; rewrite M in E; subst f; simpl; auto.
  - simpl. auto.
Qed.

Lemma sumQ_nonneg (l : list Q) : Forall (Qle 0) l -> 0 <= sumQ l.
Proof.
  unfold sumQ. intros H.
  assert (G : forall acc, 0 <= acc -> Forall (Qle 0) l ->
              0 <= fold_left (fun a b => Qred (a + b)) l acc).
  2:{ apply G; [apply Qle_refl | exact H]. }
  clear H. induction l as [|x l IH]; intros acc Hacc H; cbn [fold_left]; [exact Hacc|].
  apply Forall_cons_iff in H as [Hx H]. apply IH; [|exact H].
  pose proof (Qred_correct (acc + x)). lra.
Qed.

Lemma window_weight_nonneg (s e : Q) (n : Note.t) : note_ok n -> 0 <= window_weight s e n.
Proof.
  intros Hn. unfold window_weight. apply Qmult_le_0_compat; [exact Hn|]. apply Q.le_max_l.
Qed.

Lemma add_weight_nonneg (pc : Z) (w : Q) (d : list (Z * Q)) :
  0 <= w -> Forall (fun kw => 0 <= snd kw) d -> Forall (fun kw => 0 <= snd kw) (add_weight pc w d).
Proof.
  intros Hw. induction 1 as [|[k v] d Hv Hd IH]; simpl.
  - constructor; [simpl; lra | constructor].
  - destruct (Z.eqb k pc); constructor; simpl in *; auto; lra.
Qed.

Lemma window_histogram_nonneg (notes : list Note.t) (s e : Q) :
  Forall note_ok notes -> Forall (fun kw => 0 <= snd kw) (window_histogram notes s e).
Proof.
  unfold window_histogram.
  assert (Hacc : Forall (fun kw : Z * Q => 0 <= snd kw) []) by constructor.
  revert Hacc. generalize (@nil (Z * Q)) as d.
  induction notes as [|n notes IH]; intros d Hd H; simpl; [exact Hd|].
  apply Forall_cons_iff in H as [Hn H]. apply IH; [|exact H].
  apply add_weight_nonneg; [apply window_weight_nonneg|]; assumption.
Qed.

Lemma enough_notes_nonempty (l : list Z) :
  (length l <? MIN_NOTES_PER_CHORD)%nat = false -> l <> [].
Proof. intros H E. subst l. discriminate. Qed.

Lemma analyze_window_meta (notes : list Note.t) (s e : Q) (ke : KeyEstimate) (c : Chord.t) :
  Forall note_ok notes -> analyze_window notes s e ke = Some c -> chord_meta_ok c.
Proof.
  intros Hn. pose proof (window_histogram_nonneg notes s e Hn) as Hw.
  unfold analyze_window. destruct notes as [|n0 t]; [discriminate|].
  destruct (window_histogram _ s e) as [|kw h]; [discriminate|].
  destruct (_ <? _)%nat eqn:Elen; [discriminate|].
  destruct (identify_chord _ _ _). intros H. inversion H. subst c. clear H.
  unfold chord_meta_ok. cbn [Chord.confidence Chord.root_pc Chord.pitch_classes].
  split; [|split].
  - apply Q.min_glb; [|lra].
    apply Qle_shift_div_l.
    + change 0 with (inject_Z 0). rewrite <- Zlt_Qlt. simpl length. lia.
    + rewrite Qmult_0_l. apply sumQ_nonneg.
      change (Forall (Qle 0) (map snd (kw :: h))). rewrite Forall_map. exact Hw.
  - apply Q.le_min_r.
  - apply minZ_In. exact (enough_notes_nonempty _ Elen).
Qed.

Lemma window_loop_meta (fuel : nat) (se : list Note.t) (ke : KeyEstimate) :
  Forall note_ok se -> forall cur e, Forall chord_meta_ok (window_loop fuel se ke cur e).
Proof.
  intros Hse. induction fuel as [|fuel IH]; intros cur e; simpl; [constructor|].
  destruct (Qltb cur e); [|constructor].
  match goal with
  | |- context [match ?x with Some c => _ | None => _ end] => destruct x as [c|] eqn:Ec
  end; [|apply IH].
  constructor; [|apply IH].
  match type of Ec with
  | (if ?b then _ else None) = _ => destruct b; [|discriminate]
  end.
  eapply analyze_window_meta; [|exact Ec]. apply Forall_filter. exact Hse.
Qed.

Lemma detect_chords_meta (events : list Note.t) (ke : KeyEstimate) :
  Forall note_ok events -> Forall chord_meta_ok (detect_chords_in_windows events ke).
Proof.
  intros H. unfold detect_chords_in_windows. destruct events as [|n t]; [constructor|].
  apply window_loop_meta. apply sort_by_Forall. exact H.
Qed.

Lemma emit_run_meta (ce : list Chord.t) (sym : string) (on off : Q) :
  Forall chord_meta_ok ce -> Forall chord_meta_ok (emit_run ce sym on off).
Proof.
  intros H. unfold emit_run. destruct (String.eqb sym "N"); [constructor|].
  destruct (find_original ce sym) as [o|] eqn:E; [|constructor].
  apply find_some in E as [Hin _]. rewrite Forall_forall in H.
  specialize (H o Hin). repeat constructor; apply H.
Qed.

Lemma reseg_loop_meta (ce : list Chord.t) (rest : list (Q * string)) :
  Forall chord_meta_ok ce ->
  forall sym start prev, Forall chord_meta_ok (fst (reseg_loop ce rest sym start prev)).
Proof.
  intros Hce. induction rest as [|[p s] rest IH]; intros sym start prev; simpl; [constructor|].
  destruct (negb (String.eqb s sym) || match rest with [] => true | _ => false end);
    [|apply IH].
  specialize (IH s p p). destruct (reseg_loop ce rest s p p) as [out st].
  simpl in *. apply Forall_app. split; [apply emit_run_meta, Hce | exact IH].
Qed.

Lemma smooth_chord_progression_meta (chords : list Chord.t) :
  Forall chord_meta_ok chords -> Forall chord_meta_ok (smooth_chord_progression chords).
Proof.
  intros H. unfold smooth_chord_progression.
  destruct (length chords <=? 2)%nat; [exact H|].
  destruct (Qleb _ 0); [exact H|].
  destruct (filter_window <=? _)%nat; [|exact H].
  unfold resegment. destruct (combine _ _) as [|[p0 s0] rest]; [constructor|].
  pose proof (reseg_loop_meta chords rest H s0 p0 p0) as Hr.
  destruct (reseg_loop chords rest s0 p0 p0) as [out [sym st]].
  apply Forall_app. split; [exact Hr | apply emit_run_meta, H].
Qed.

Lemma merge_two_meta (c n : Chord.t) :
  chord_meta_ok c -> chord_meta_ok n -> chord_meta_ok (merge_two c n).
Proof.
  intros [Hc0 [Hc1 Hc2]] [Hn0 [Hn1 _]]. unfold chord_meta_ok, merge_two.
  cbn [Chord.confidence Chord.root_pc Chord.pitch_classes]. split; [|split].
  - apply Qle_shift_div_l; [lra|]. rewrite Qmult_0_l. lra.
  - apply Qle_shift_div_r; [lra|]. lra.
  - unfold unionZ. apply in_or_app. left. exact Hc2.
Qed.

Lemma merge_loop_meta (rest : list Chord.t) :
  Forall chord_meta_ok rest ->
  forall c, chord_meta_ok c -> Forall chord_meta_ok (merge_loop c rest).
Proof.
  induction 1 as [|n rest Hn Hr IH]; intros c Hc; simpl; [constructor; [exact Hc | constructor]|].
  destruct (should_merge c n).
  - apply IH, merge_two_meta; assumption.
  - constructor; [exact Hc | apply IH, Hn].
Qed.

Lemma merge_similar_chords_meta (chords : list Chord.t) :
  Forall chord_meta_ok chords -> Forall chord_meta_ok (merge_similar_chords chords).
Proof.
  intros H. unfold merge_similar_chords. destruct chords as [|c [|n rest]]; [exact H | exact H|].
  apply Forall_cons_iff in H as [Hc H]. apply merge_loop_meta; assumption.
Qed.

Lemma ensure_stability_ok (chords : list Chord.t) :
  Forall chord_meta_ok chords -> Forall chord_ok (ensure_stability chords).
Proof.
  rewrite !Forall_forall. intros H c Hc. unfold ensure_stability in Hc.
  apply filter_In in Hc as [Hin Hd]. apply Qleb_iff in Hd.
  destruct (H c Hin) as [H0 [H1 H2]]. unfold chord_duration, MIN_CHORD_DURATION in *.
  unfold chord_ok, MIN_CHORD_DURATION. repeat split; auto; lra.
Qed.

Lemma key_filter_ok (events : list Note.t) (ke : KeyEstimate) :
  Forall note_ok events -> Forall note_ok (apply_key_filtering events ke).
Proof.
  intros H. unfold apply_key_filtering. destruct (key_conf_below ke 0.5); [exact H|].
  apply Forall_filter. exact H.
Qed.

(** C1: for every input note list whose confidences are nonnegative (the data
    model has them in [0, 1]), every chord of the final output has its
    confidence in [0, 1], a duration of at least 0.3 s, onset < offset, and
    its root_pc among its pitch_classes. *)
Theorem infer_chords_output_ok (note_events : list Note.t) :
  Forall (fun n => 0 <= Note.confidence n) note_events ->
  Forall chord_ok (fst (infer_chords note_events)).
Proof.
  intros H. unfold infer_chords. cbv zeta. cbn [fst].
  apply ensure_stability_ok, merge_similar_chords_meta, smooth_chord_progression_meta.
  unfold apply_harmony_filtering. apply Forall_filter.
  apply detect_chords_meta, key_filter_ok.
  unfold filter_short_notes. apply Forall_filter.
  apply smooth_pitch_activity_ok. exact H.
Qed.

Lemma infer_chords_output_ok_witness :
  Forall (fun n => 0 <= Note.confidence n) two_window_input
  /\ Forall chord_ok (fst (infer_chords two_window_input)).
Proof.
  assert (Hin : Forall (fun n => 0 <= Note.confidence n) two_window_input).
  { unfold two_window_input. repeat constructor; simpl; lra. }
  split; [exact Hin | apply (infer_chords_output_ok two_window_input Hin)].
Defined.

(** ** The chord identifier's arg-max *)

Section ScanSpec.
Context {A B : Type} (sc : A -> option Q) (out : A -> B).

Lemma scan_spec (l : list A) : forall b0 o0,
  (fold_left (scan_step sc out) l (b0, o0) = (b0, o0)
   /\ Forall (fun a => score_at_most (sc a) b0) l)
  \/ (exists pre a post s,
        l = pre ++ a :: post /\ sc a = Some s /\ b0 < s
        /\ Forall (fun x => score_below (sc x) s) pre
        /\ Forall (fun x => score_at_most (sc x) s) post
        /\ fold_left (scan_step sc out) l (b0, o0) = (s, Some (out a))).
Proof.
  induction l as [|x l IH]; intros b0 o0; cbn [fold_left].
  - left. split; [reflexivity | constructor].
  - remember (scan_step sc out (b0, o0) x) as st eqn:Est. unfold scan_step in Est.
    destruct (sc x) as [s1|] eqn:Ex.
    + cbn [fst] in Est. destruct (Qltb b0 s1) eqn:Elt; subst st.
      * apply Qltb_iff in Elt.
        destruct (IH s1 (Some (out x)))
          as [[E F]|[pre [a [post [s [El [Ea [Hlt [Fpre [Fpost Er]]]]]]]]]].
        -- right. exists [], x, l, s1.
           split; [reflexivity|]. split; [exact Ex|]. split; [exact Elt|].
           split; [constructor|]. split; [exact F | exact E].
        -- right. exists (x :: pre), a, post, s. subst l.
           split; [reflexivity|]. split; [exact Ea|].
           split; [apply (Qlt_trans _ s1); assumption|].
           split; [constructor; [rewrite Ex; exact Hlt | exact Fpre]|].
           split; [exact Fpost | exact Er].
      * apply Qltb_false in Elt.
        destruct (IH b0 o0)
          as [[E F]|[pre [a [post [s [El [Ea [Hlt [Fpre [Fpost Er]]]]]]]]]].
        -- left. split; [exact E|]. constructor; [rewrite Ex; exact Elt | exact F].
        -- right. exists (x :: pre), a, post, s. subst l.
           split; [reflexivity|]. split; [exact Ea|]. split; [exact Hlt|].
           split; [|split; [exact Fpost | exact Er]].
           constructor; [rewrite Ex; simpl; apply (Qle_lt_trans _ b0); assumption | exact Fpre].
    + subst st.
      destruct (IH b0 o0)
        as [[E F]|[pre [a [post [s [El [Ea [Hlt [Fpre [Fpost Er]]]]]]]]]].
      * left. split; [exact E|]. constructor; [rewrite Ex; exact I | exact F].
      * right. exists (x :: pre), a, post, s. subst l.
        split; [reflexivity|]. split; [exact Ea|]. split; [exact Hlt|].
        split; [|split; [exact Fpost | exact Er]].
        constructor; [rewrite Ex; exact I | exact Fpre].
Qed.

End ScanSpec.

Lemma fold_left_flat_map {A B C} (g : C -> B -> C) (f : A -> list B) (l : list A) :
  forall acc, fold_left g (flat_map f l) acc
              = fold_left (fun acc x => fold_left g (f x) acc) l acc.
Proof.
  induction l as [|x l IH]; intros acc; simpl; [reflexivity|].
  rewrite fold_left_app. apply IH.
Qed.

Lemma fold_left_map_fun {A B C} (g : C -> B -> C) (f : A -> B) (l : list A) :
  forall acc, fold_left g (map f l) acc = fold_left (fun acc x => g acc (f x)) l acc.
Proof. induction l as [|x l IH]; intros acc; simpl; [reflexivity | apply IH]. Qed.

Definition candidate_out (rt : Z * ChordTest) : string * string * Z :=
  ((note_name (fst rt) ++ suffix (snd rt))%string, test_type (snd rt), fst rt).

Lemma fold_id_step (pcs : list Z) (ke : KeyEstimate) (w : list (Z * Q)) (r : Z)
    (l : list ChordTest) :
  forall st, fold_left (id_step pcs ke w r) l st
             = fold_left (fun acc t => scan_step (candidate_score pcs ke w) candidate_out acc (r, t))
                         l st.
Proof.
  induction l as [|t l IH]; intros st; cbn [fold_left]; [reflexivity|].
  rewrite IH. reflexivity.
Qed.

Lemma identify_fold_scan (pcs : list Z) (ke : KeyEstimate) (w : list (Z * Q)) :
  forall st0,
    fold_left (fun st root => fold_left (id_step pcs ke w root) chord_tests st) pcs st0
    = fold_left (scan_step (candidate_score pcs ke w) candidate_out)
                (chord_candidates pcs) st0.
Proof.
  assert (G : forall tests roots st0,
    fold_left (fun st root => fold_left (id_step pcs ke w root) tests st) roots st0
    = fold_left (scan_step (candidate_score pcs ke w) candidate_out)
                (flat_map (fun root => map (fun t => (root, t)) tests) roots) st0).
  { intros tests roots st0. rewrite fold_left_flat_map.
    revert st0. induction roots as [|r rs IH]; intros st0; [reflexivity|]. cbn [fold_left].
    rewrite IH, fold_left_map_fun, fold_id_step. reflexivity. }
  intros st0. unfold chord_candidates. apply (G chord_tests pcs st0).
Qed.

Lemma identify_chord_eq (pcs : list Z) (ke : KeyEstimate) (w : list (Z * Q)) :
  pcs <> [] ->
  identify_chord pcs ke w
  = match snd (fold_left (scan_step (candidate_score pcs ke w) candidate_out)
                         (chord_candidates pcs) (0, None)) with
    | Some (symbol, ty, _) => (symbol, ty)
    | None => fallback_chord pcs
    end.
Proof.
  intros Hne. destruct pcs as [|p0 ps]; [congruence|].
  unfold identify_chord. cbv beta iota zeta. rewrite identify_fold_scan.
  destruct (fold_left _ _ _) as [b [[[sym ty] r]|]]; reflexivity.
Qed.

Lemma Forall_score_at_most (sc : Z * ChordTest -> option Q) (b : Q) (l : list (Z * ChordTest)) :
  forallb (fun rt => score_at_mostb (sc rt) b) l = true ->
  Forall (fun rt => score_at_most (sc rt) b) l.
Proof.
  induction l as [|rt l IH]; intros H; [constructor|].
  simpl in H. apply andb_true_iff in H as [H1 H2]. constructor; [|exact (IH H2)].
  unfold score_at_mostb, score_at_most in *.
  destruct (sc rt); [apply Qleb_iff; exact H1 | exact I].
Qed.

(** C5 (amended): for every non-empty list of pitch classes, weights and key
    estimate, the chord identifier returns the symbol and type of the first
    (root, shape) pair, in the order roots appear in the given list and then
    table order, whose score is positive and maximal: every earlier pair
    scores strictly less and every later pair at most as much.  When no pair
    has a positive score it falls back to the lowest pitch class with symbol
    "<root>?" and type unknown; in particular it does so when no shape's
    required interval set is a subset of any candidate root's interval set. *)
Theorem identify_chord_first_best (pcs : list Z) (ke : KeyEstimate) (w : list (Z * Q)) :
  pcs <> [] ->
  ((exists pre root t post s,
      chord_candidates pcs = pre ++ (root, t) :: post
      /\ chord_score pcs ke w root t = Some s /\ 0 < s
      /\ Forall (fun rt => score_below (candidate_score pcs ke w rt) s) pre
      /\ Forall (fun rt => score_at_most (candidate_score pcs ke w rt) s) post
      /\ identify_chord pcs ke w = ((note_name root ++ suffix t)%string, test_type t))
   \/ (Forall (fun rt => score_at_most (candidate_score pcs ke w rt) 0) (chord_candidates pcs)
       /\ identify_chord pcs ke w = fallback_chord pcs))
  /\ ((forall root t, In root pcs -> In t chord_tests ->
         subsetZ (required_intervals t)
                 (dedupZ (map (fun pc => Z.modulo (pc - root) 12) pcs)) = false) ->
      identify_chord pcs ke w = fallback_chord pcs).
Proof.
  intros Hne.
  assert (Hmain :
    (exists pre root t post s,
      chord_candidates pcs = pre ++ (root, t) :: post
      /\ chord_score pcs ke w root t = Some s /\ 0 < s
      /\ Forall (fun rt => score_below (candidate_score pcs ke w rt) s) pre
      /\ Forall (fun rt => score_at_most (candidate_score pcs ke w rt) s) post
      /\ identify_chord pcs ke w = ((note_name root ++ suffix t)%string, test_type t))
    \/ (Forall (fun rt => score_at_most (candidate_score pcs ke w rt) 0) (chord_candidates pcs)
        /\ identify_chord pcs ke w = fallback_chord pcs)).
  { rewrite (identify_chord_eq pcs ke w Hne).
    destruct (scan_spec (candidate_score pcs ke w) candidate_out (chord_candidates pcs) 0 None)
      as [[E F]|[pre [[root t] [post [s [El [Ea [Hlt [Fpre [Fpost Er]]]]]]]]]].
    - right. rewrite E. split; [exact F | reflexivity].
    - left. exists pre, root, t, post, s. rewrite Er. repeat split; assumption. }
  split; [exact Hmain|].
  intros Hsub. destruct Hmain as [[pre [root [t [post [s [El [Ea _]]]]]]]|[_ Hf]]; [|exact Hf].
  exfalso.
  assert (Hin : In (root, t) (chord_candidates pcs))
    by (rewrite El; apply in_or_app; right; left; reflexivity).
  unfold chord_candidates in Hin. apply in_flat_map in Hin as [r [Hr Hrt]].
  apply in_map_iff in Hrt as [t' [Et Ht']]. injection Et as <- <-.
  unfold chord_score in Ea. cbv zeta in Ea. rewrite (Hsub r t' Hr Ht') in Ea. discriminate.
Qed.

Lemma identify_chord_first_best_witness :
  tie_pcs <> []
  /\ (identify_chord tie_pcs tie_key tie_weights = fallback_chord tie_pcs
      \/ exists root t, In (root, t) (chord_candidates tie_pcs)
           /\ identify_chord tie_pcs tie_key tie_weights
              = ((note_name root ++ suffix t)%string, test_type t)).
Proof.
  assert (Hne : tie_pcs <> []) by discriminate.
  split; [exact Hne|].
  destruct (identify_chord_first_best tie_pcs tie_key tie_weights Hne)
    as [[[pre [root [t [post [s [El [_ [_ [_ [_ Er]]]]]]]]]]|[_ Hf]] _].
  - right. exists root, t. split; [|exact Er].
    rewrite El. apply in_or_app. right. left. reflexivity.
  - left. exact Hf.
Defined.

(** C5: the tie between equally scored candidate roots is not broken in
    favour of the lowest root.  For [tie_pcs = [9; 5; 1]] the augmented
    shape scores the same maximal value from root 5 (F) and from root 9 (A),
    every other (root, shape) pair scores at most that value, and the
    identifier returns Aaug, the candidate met first in list order, not Faug,
    the one with the lowest root. *)
Lemma identify_chord_tie_not_lowest_root :
  (exists s,
     chord_score tie_pcs tie_key tie_weights 5 aug_test = Some s
     /\ chord_score tie_pcs tie_key tie_weights 9 aug_test = Some s
     /\ Forall (fun rt => score_at_most (candidate_score tie_pcs tie_key tie_weights rt) s)
               (chord_candidates tie_pcs))
  /\ In aug_test chord_tests
  /\ identify_chord tie_pcs tie_key tie_weights = ("Aaug"%string, "aug"%string)
  /\ identify_chord tie_pcs tie_key tie_weights
     <> ((note_name 5 ++ suffix aug_test)%string, test_type aug_test).
Proof.
  split; [|split; [|split]].
  - exists (174960 # 6000). split; [vm_compute; reflexivity|]. split; [vm_compute; reflexivity|].
    apply Forall_score_at_most. vm_compute. reflexivity.
  - simpl. tauto.
  - vm_compute. reflexivity.
  - vm_compute. discriminate.
Qed.

(** ** The key detector's arg-max *)

Lemma fold_sum_shift (l : list Q) :
  forall acc, fold_left (fun a b => Qred (a + b)) l acc
              == acc + fold_left (fun a b => Qred (a + b)) l 0.
Proof.
  induction l as [|x l IH]; intros acc; cbn [fold_left]; [ring|].
  rewrite (IH (Qred (acc + x))), (IH (Qred (0 + x))), !Qred_correct. ring.
Qed.

Lemma sumQ_cons (x : Q) (l : list Q) : sumQ (x :: l) == x + sumQ l.
Proof.
  unfold sumQ. cbn [fold_left]. rewrite fold_sum_shift, Qred_correct. ring.
Qed.

Lemma sumQ_nil : sumQ [] = 0.
Proof. reflexivity. Qed.

Lemma Qsq_nonneg (x : Q) : 0 <= x * x.
Proof.
  destruct (Qlt_le_dec x 0) as [H|H].
  - setoid_replace (x * x) with ((- x) * (- x)) by ring. apply Qmult_le_0_compat; lra.
  - apply Qmult_le_0_compat; exact H.
Qed.

Lemma sum_sq_nonneg (x : list Q) : 0 <= sumQ (map (fun a => Qred (a * a)) x).
Proof.
  apply sumQ_nonneg. rewrite Forall_map, Forall_forall. intros a _.
  rewrite Qred_correct. apply Qsq_nonneg.
Qed.

Lemma cs_step (a b A B C : Q) :
  0 <= A -> 0 <= B -> C * C <= A * B ->
  (a * b + C) * (a * b + C) <= (a * a + A) * (b * b + B).
Proof.
  intros HA HB HC.
  assert (H4 : 0 <= a * a * B + b * b * A - 2 * a * b * C).
  { destruct (Qlt_le_dec 0 A) as [HA'|HA'].
    - apply (Qmult_le_l 0 _ A HA'). rewrite Qmult_0_r.
      assert (E : A * (a * a * B + b * b * A - 2 * a * b * C)
                  == (A * b - a * C) * (A * b - a * C) + a * a * (A * B - C * C)) by ring.
      rewrite E. apply Qle_trans with (0 + 0); [lra|].
      apply Qplus_le_compat; [apply Qsq_nonneg|].
      apply Qmult_le_0_compat; [apply Qsq_nonneg | lra].
    - assert (EA : A == 0) by lra. rewrite EA in HC |- *.
      assert (HC' : C * C <= 0) by lra.
      assert (EC : C == 0).
      { pose proof (Qsq_nonneg C). destruct (Qlt_le_dec C 0) as [Hc|Hc]; [nra|].
        destruct (Qlt_le_dec 0 C) as [Hc'|Hc']; [nra | lra]. }
      rewrite EC. pose proof (Qsq_nonneg a). nra. }
  nra.
Qed.

(** Cauchy-Schwarz for the sums [corrcoef_sq] builds. *)
Lemma cauchy_schwarz (x y : list Q) :
  sumQ (map (fun p => Qred (fst p * snd p)) (combine x y))
  * sumQ (map (fun p => Qred (fst p * snd p)) (combine x y))
  <= sumQ (map (fun a => Qred (a * a)) x) * sumQ (map (fun b => Qred (b * b)) y).
Proof.
  revert y. induction x as [|a x IH]; intros y.
  - cbn [combine map]. rewrite !sumQ_nil. lra.
  - destruct y as [|b y].
    + cbn [combine map]. rewrite !sumQ_nil. lra.
    + cbn [combine map fst snd]. rewrite !sumQ_cons, !Qred_correct.
      apply cs_step; [apply sum_sq_nonneg | apply sum_sq_nonneg | apply IH].
Qed.

(** A Pearson correlation is at least -1, and so is its signed square. *)
Lemma corrcoef_sq_ge (x y : list Q) : -1 <= corrcoef_sq x y.
Proof.
  unfold corrcoef_sq. cbv zeta.
  set (dx := map _ x). set (dy := map _ y).
  pose proof (cauchy_schwarz dx dy) as HCS.
  pose proof (sum_sq_nonneg dx) as HA. pose proof (sum_sq_nonneg dy) as HB.
  set (cov := sumQ (map _ (combine dx dy))) in *.
  set (vx := sumQ (map _ dx)) in *. set (vy := sumQ (map _ dy)) in *.
  destruct (Qeq_bool (vx * vy) 0) eqn:E; [lra|].
  rewrite Qred_correct.
  assert (Hp : 0 < vx * vy).
  { destruct (Qle_lt_or_eq 0 (vx * vy)) as [H|H]; [apply Qmult_le_0_compat; assumption | exact H|].
    exfalso. assert (H' : Qeq_bool (vx * vy) 0 = true) by (apply Qeq_bool_iff; rewrite H; reflexivity).
    congruence. }
  apply Qle_shift_div_l; [exact Hp|].
  destruct (Qlt_le_dec cov 0) as [Hc|Hc].
  - rewrite (Qabs_neg cov) by lra. nra.
  - rewrite (Qabs_pos cov) by exact Hc. pose proof (Qsq_nonneg cov). nra.
Qed.

Lemma clamp01_compat (x y : Q) : x == y -> clamp01 x == clamp01 y.
Proof. intros H. unfold clamp01. rewrite H. reflexivity. Qed.

Lemma key_fold_scan (pw : list Q) (l : list nat) :
  forall b k,
    fold_left (scan_step (fun c => Some (key_correlation pw c)) (fun c => c))
              (flat_map (fun r => [(r, Major); (r, Minor)]) l) (b, Some k)
    = let res := fold_left (key_step pw) l (b, k) in (fst res, Some (snd res)).
Proof.
  induction l as [|r l IH]; intros b k; [reflexivity|].
  cbn [flat_map app fold_left].
  assert (E : scan_step (fun c => Some (key_correlation pw c)) (fun c => c)
                (scan_step (fun c => Some (key_correlation pw c)) (fun c => c)
                   (b, Some k) (r, Major)) (r, Minor)
              = (fst (key_step pw (b, k) r), Some (snd (key_step pw (b, k) r)))).
  { unfold scan_step, key_step, key_correlation. cbn [fst snd key_profile].
    destruct (Qltb b (correlate_with_profile pw r major_profile)); cbn [fst snd];
      destruct (Qltb _ (correlate_with_profile pw r minor_profile)); reflexivity. }
  rewrite E. destruct (key_step pw (b, k) r) as [b' k']. apply IH.
Qed.

Lemma key_scan_candidates (pw : list Q) :
  fold_left (scan_step (fun c => Some (key_correlation pw c)) (fun c => c))
            key_candidates (-1, Some (0%nat, Major))
  = let res := fold_left (key_step pw) (seq 0 12) (-1, (0%nat, Major)) in
    (fst res, Some (snd res)).
Proof. exact (key_fold_scan pw (seq 0 12) (-1) (0%nat, Major)). Qed.

(** C4: for every note list, [estimate_key] returns the neutral estimate
    (C major, confidence 0) when the list is empty or its histogram weighs
    nothing; otherwise it returns the first of the 24 candidates, in the
    order roots 0 to 11 with major before minor at each root, whose
    correlation with the normalised histogram is maximal (every earlier
    candidate correlates strictly less, every later one at most as much),
    so ties go to the lower root and to major at the same root; its
    confidence is that correlation clamped to [0, 1] (correlations are
    represented by their signed squares, see the header). *)
Theorem estimate_key_first_max (note_events : list Note.t) (exclude_short_notes : bool) :
  let ke := estimate_key note_events exclude_short_notes in
  let pw := key_weights note_events exclude_short_notes in
  ((note_events = [] \/ sumQ (key_histogram note_events exclude_short_notes) == 0)
   /\ ke = mkKey 0 Major 0)
  \/ (note_events <> []
      /\ ~ sumQ (key_histogram note_events exclude_short_notes) == 0
      /\ exists pre r m post,
           key_candidates = pre ++ (r, m) :: post
           /\ Forall (fun c => key_correlation pw c < key_correlation pw (r, m)) pre
           /\ Forall (fun c => key_correlation pw c <= key_correlation pw (r, m)) post
           /\ key_pc ke = Z.of_nat r /\ mode ke = m
           /\ confidence_sq ke == clamp01 (key_correlation pw (r, m))).
Proof.
  cbv zeta. destruct note_events as [|n0 t].
  { left. split; [left; reflexivity | reflexivity]. }
  pose proof (key_scan_candidates (key_weights (n0 :: t) exclude_short_notes)) as Hf.
  unfold estimate_key. cbv beta iota zeta.
  destruct (Qeq_bool (sumQ (key_histogram (n0 :: t) exclude_short_notes)) 0) eqn:Ez.
  { left. split; [right; apply Qeq_bool_iff; exact Ez | reflexivity]. }
  right. split; [discriminate|].
  split; [intros H; apply Qeq_bool_iff in H; congruence|].
  set (pw := key_weights (n0 :: t) exclude_short_notes) in *.
  change (map (fun x => Qred (x / sumQ (key_histogram (n0 :: t) exclude_short_notes)))
              (key_histogram (n0 :: t) exclude_short_notes)) with pw.
  destruct (fold_left (key_step pw) (seq 0 12) (-1, (0%nat, Major))) as [best [pc m]] eqn:Ef.
  cbv zeta in Hf. cbn [fst snd] in Hf.
  destruct (scan_spec (fun c => Some (key_correlation pw c)) (fun c => c) key_candidates
              (-1) (Some (0%nat, Major)))
    as [[E F]|[pre [[r mm] [post [s [El [Ea [Hlt [Fpre [Fpost Er]]]]]]]]]].
  - rewrite E in Hf. injection Hf as <- <- <-.
    assert (Hkc : key_candidates = (0%nat, Major) :: tl key_candidates) by reflexivity.
    rewrite Hkc in F. apply Forall_cons_iff in F as [F0 F]. cbn in F0.
    pose proof (corrcoef_sq_ge pw (roll (key_profile Major) 0)) as Hge.
    assert (Hm1 : key_correlation pw (0%nat, Major) == -1)
      by (unfold key_correlation, correlate_with_profile in *; cbn [fst snd] in *; lra).
    exists [], 0%nat, Major, (tl key_candidates).
    split; [exact Hkc|]. split; [constructor|].
    split; [|split; [reflexivity | split; [reflexivity|]]].
    + eapply Forall_impl; [|exact F]. intros c Hc. cbn in Hc. rewrite Hm1.
      exact Hc.
    + cbn [confidence_sq]. apply clamp01_compat. rewrite Hm1. reflexivity.
  - rewrite Er in Hf. injection Hf as <- <- <-. injection Ea as Ea.
    exists pre, r, mm, post. split; [exact El|].
    split; [|split; [|split; [reflexivity | split; [reflexivity|]]]].
    + eapply Forall_impl; [|exact Fpre]. intros c Hc. cbn in Hc. rewrite Ea. exact Hc.
    + eapply Forall_impl; [|exact Fpost]. intros c Hc. cbn in Hc. rewrite Ea. exact Hc.
    + cbn [confidence_sq]. rewrite Ea. reflexivity.
Qed.

(** ** The pitch smoother, one pitch class at a time *)

Ltac split_qleb :=
  repeat match goal with
  | |- context [Qleb ?x ?y] => let E := fresh "E" in destruct (Qleb x y) eqn:E
  end;
  repeat match goal with
  | H : Qleb _ _ = true |- _ => apply Qleb_iff in H
  | H : Qleb _ _ = false |- _ => apply Qleb_false in H
  end.

Lemma sort3_median (a b c : Q) :
  nth 1 (sort_by (fun q => q) [a; b; c]) 0 == median3 a b c.
Proof.
  unfold sort_by, median3. cbn [fold_left insert_by].
  destruct (Q.min_spec a b) as [[? ?]|[? ?]];
  destruct (Q.max_spec a b) as [[? ?]|[? ?]];
  destruct (Q.min_spec (Qmax a b) c) as [[? ?]|[? ?]];
  destruct (Q.max_spec (Qmin a b) (Qmin (Qmax a b) c)) as [[? ?]|[? ?]];
  split_qleb; cbn [insert_by nth]; split_qleb; cbn [nth]; lra.
Qed.

Lemma window3 (i : nat) (p : list Q) :
  (i + 3 <= length p)%nat ->
  firstn 3 (skipn i p) = [nth i p 0; nth (S i) p 0; nth (S (S i)) p 0].
Proof.
  revert p. induction i as [|i IH]; intros p Hl.
  - destruct p as [|a [|b [|c p]]]; simpl in Hl; try lia. reflexivity.
  - destruct p as [|a p]; simpl in Hl; [lia|]. cbn [skipn nth]. apply IH. lia.
Qed.

(** [scipy.signal.medfilt] with kernel 3 is the zero-padded median of three. *)
Lemma medfilt3_median (xs : list Q) :
  map Qred (medfilt 3 xs) = map Qred (median3_filter 0 0 xs).
Proof.
  unfold medfilt, median3_filter. cbv zeta.
  change (Nat.div 3 2) with 1%nat. cbn [repeat app].
  rewrite !map_map. apply map_ext_in. intros i Hi. apply in_seq in Hi.
  rewrite window3.
  - apply Qred_complete, sort3_median.
  - cbn [length]. rewrite length_app. cbn [length]. lia.
Qed.

Lemma rebuild_repr (s : list Note.t) :
  forall m m', map Qred m = map Qred m' ->
  map note_repr (map (fun ec => Note.mk (Note.onset (fst ec)) (Note.offset (fst ec))
                                        (Note.pitch (fst ec)) (snd ec)) (combine s m))
  = map note_repr (map (fun nc => with_confidence (fst nc) (snd nc)) (combine s m')).
Proof.
  induction s as [|n s IH]; intros m m' H; [reflexivity|].
  destruct m as [|c m], m' as [|c' m']; try discriminate; [reflexivity|].
  cbn [map] in H. injection H as Hc Hm. cbn [combine map].
  f_equal; [|apply IH; exact Hm].
  unfold note_repr, with_confidence. cbn. rewrite Hc. reflexivity.
Qed.

Lemma smooth_group_repr (g : list Note.t) :
  map note_repr (smooth_group MEDIAN_FILTER_SIZE g)
  = map note_repr (smoothed_class zero_pad g).
Proof.
  unfold smooth_group, smoothed_class, MEDIAN_FILTER_SIZE. cbv zeta.
  destruct (length g <=? 1)%nat; [reflexivity|].
  rewrite length_map.
  destruct (Nat.leb_spec 3 (length (sort_by Note.onset g)));
    destruct (Nat.ltb_spec (length (sort_by Note.onset g)) 3); try lia; [|reflexivity].
  apply rebuild_repr. apply medfilt3_median.
Qed.

Lemma lookup_group_add (p k : Z) (n : Note.t) (g : list (Z * list Note.t)) :
  lookup_group p (group_add k n g)
  = if Z.eqb k p then (lookup_group p g ++ [n])%list else lookup_group p g.
Proof.
  induction g as [|[j ns] g IH]; cbn [group_add lookup_group].
  - destruct (Z.eqb k p); reflexivity.
  - destruct (Z.eqb_spec j k) as [E|E]; cbn [lookup_group].
    + subst j. destruct (Z.eqb k p); reflexivity.
    + rewrite IH. destruct (Z.eqb_spec j p), (Z.eqb_spec k p); subst; try congruence; reflexivity.
Qed.

Lemma group_add_keys (k j : Z) (n : Note.t) (g : list (Z * list Note.t)) :
  In j (map fst (group_add k n g)) -> j = k \/ In j (map fst g).
Proof.
  induction g as [|[i ns] g IH]; cbn [group_add map fst].
  - intros [E|[]]. left. symmetry. exact E.
  - intros Hj. destruct (Z.eqb i k); cbn [map fst] in Hj |- *.
    + right. exact Hj.
    + destruct Hj as [E|Hj]; [right; left; exact E|].
      destruct (IH Hj); [left | right; right]; assumption.
Qed.

Lemma group_add_NoDup (k : Z) (n : Note.t) (g : list (Z * list Note.t)) :
  NoDup (map fst g) -> NoDup (map fst (group_add k n g)).
Proof.
  induction g as [|[i ns] g IH]; cbn [group_add map fst]; intros H.
  - constructor; [intros []|constructor].
  - apply NoDup_cons_iff in H as [Hi H].
    destruct (Z.eqb_spec i k) as [E|E]; cbn [map fst]; constructor; auto.
    intros Hin. apply group_add_keys in Hin as [Hin|Hin]; [congruence | contradiction].
Qed.

Lemma group_by_pc_spec (notes : list Note.t) :
  NoDup (map fst (group_by_pc notes))
  /\ forall p, lookup_group p (group_by_pc notes) = filter (of_class p) notes.
Proof.
  unfold group_by_pc.
  assert (G : forall l g d,
    NoDup (map fst g) -> (forall p, lookup_group p g = filter (of_class p) d) ->
    NoDup (map fst (fold_left (fun g n => group_add (Note.pitch_class n) n g) l g))
    /\ forall p, lookup_group p (fold_left (fun g n => group_add (Note.pitch_class n) n g) l g)
                 = filter (of_class p) (d ++ l)).
  { induction l as [|n l IH]; intros g d Hn Hl; cbn [fold_left].
    - rewrite app_nil_r. split; assumption.
    - replace (d ++ n :: l)%list with ((d ++ [n]) ++ l)%list by (rewrite <- app_assoc; reflexivity).
      apply IH; [apply group_add_NoDup, Hn|].
      intros p. rewrite lookup_group_add, filter_app, Hl. cbn [filter]. unfold of_class.
      destruct (Z.eqb (Note.pitch_class n) p); [reflexivity | rewrite app_nil_r; reflexivity]. }
  apply (G notes [] []); [constructor | reflexivity].
Qed.

Lemma lookup_group_In (g : list (Z * list Note.t)) (k : Z) (ns : list Note.t) :
  NoDup (map fst g) -> In (k, ns) g -> lookup_group k g = ns.
Proof.
  induction g as [|[j ms] g IH]; [intros _ []|].
  cbn [map fst lookup_group]. intros Hn Hin. apply NoDup_cons_iff in Hn as [Hj Hn].
  destruct Hin as [E|Hin].
  - injection E as -> ->. rewrite Z.eqb_refl. reflexivity.
  - destruct (Z.eqb_spec j k) as [->|E]; [|apply IH; assumption].
    exfalso. apply Hj. apply in_map_iff. exists (k, ns). auto.
Qed.

Lemma lookup_group_absent (g : list (Z * list Note.t)) (p : Z) :
  ~ In p (map fst g) -> lookup_group p g = [].
Proof.
  induction g as [|[j ms] g IH]; [reflexivity|]. cbn [map fst lookup_group]. intros H.
  destruct (Z.eqb_spec j p); [exfalso; apply H; left; assumption|].
  apply IH. intros Hin. apply H. right. exact Hin.
Qed.

Lemma sort_by_In {A} (key : A -> Q) (l : list A) (x : A) : In x (sort_by key l) -> In x l.
Proof.
  intros Hx. pose proof (sort_by_Forall (fun y => In y l) key l) as H.
  assert (Hl : Forall (fun y => In y l) l) by (apply Forall_forall; auto).
  specialize (H Hl). rewrite Forall_forall in H. apply H, Hx.
Qed.

Lemma smooth_group_class (k : Z) (g : list Note.t) :
  Forall (fun n => Note.pitch_class n = k) g ->
  Forall (fun n => Note.pitch_class n = k) (smooth_group MEDIAN_FILTER_SIZE g).
Proof.
  intros H. unfold smooth_group.
  destruct (length g <=? 1)%nat; [exact H|].
  pose proof (sort_by_Forall _ Note.onset g H) as Hs.
  destruct (_ <=? _)%nat; [|exact Hs].
  rewrite Forall_forall in Hs |- *. intros x Hx.
  apply in_map_iff in Hx as [[e c] [Hx Hin]]. subst x.
  apply in_combine_l in Hin. apply Hs in Hin. exact Hin.
Qed.

Lemma filter_class_uniform (k p : Z) (l : list Note.t) :
  Forall (fun n => Note.pitch_class n = k) l ->
  filter (of_class p) l = if Z.eqb k p then l else [].
Proof.
  induction 1 as [|n l Hn Hl IH]; cbn [filter]; [destruct (Z.eqb k p); reflexivity|].
  unfold of_class at 1. rewrite Hn, IH. destruct (Z.eqb k p); reflexivity.
Qed.

Lemma filter_smoothed_groups (g : list (Z * list Note.t)) (p : Z) :
  NoDup (map fst g) ->
  Forall (fun ge => Forall (fun n => Note.pitch_class n = fst ge) (snd ge)) g ->
  filter (of_class p) (flat_map (fun ge => smooth_group MEDIAN_FILTER_SIZE (snd ge)) g)
  = smooth_group MEDIAN_FILTER_SIZE (lookup_group p g).
Proof.
  induction g as [|[k ns] g IH]; intros Hn Hf; [reflexivity|].
  cbn [flat_map map fst snd lookup_group] in *.
  apply NoDup_cons_iff in Hn as [Hk Hn]. apply Forall_cons_iff in Hf as [Hns Hf].
  rewrite filter_app, (filter_class_uniform k p _ (smooth_group_class k ns Hns)), IH by assumption.
  destruct (Z.eqb_spec k p) as [->|E]; [|reflexivity].
  rewrite lookup_group_absent by exact Hk. apply app_nil_r.
Qed.

(** C6 (amended): for every note list and pitch class p, the output notes
    of class p are the input notes of class p, left as they are when there
    is at most one, sorted by onset when there are two, and otherwise sorted
    by onset with their confidences replaced by a centred 3-point median
    filter whose window is padded with zeros at both ends; onset, offset and
    pitch are kept (confidences compared as rationals). *)
Theorem smooth_pitch_activity_by_class (note_events : list Note.t) (p : Z) :
  map note_repr (filter (of_class p) (smooth_pitch_activity MEDIAN_FILTER_SIZE note_events))
  = map note_repr (smoothed_class zero_pad (filter (of_class p) note_events)).
Proof.
  destruct note_events as [|n0 t]; [reflexivity|].
  unfold smooth_pitch_activity.
  destruct (group_by_pc_spec (n0 :: t)) as [Hn Hl].
  rewrite filter_smoothed_groups; [rewrite Hl; apply smooth_group_repr | exact Hn|].
  apply Forall_forall. intros [k ns] Hin. cbn [fst snd].
  rewrite <- (lookup_group_In _ k ns Hn Hin), Hl.
  apply Forall_forall. intros x Hx. apply filter_In in Hx as [_ Hx].
  apply Z.eqb_eq. exact Hx.
Qed.

(** C6: the median window is not edge-replicated.  For [boundary_notes]
    (confidences 0.9, 0.5, 0.5 on one pitch class) the smoother gives the
    first note confidence 0.5 = median(0, 0.9, 0.5), while an
    edge-replicated window gives median(0.9, 0.9, 0.5) = 0.9. *)
Lemma smooth_pitch_activity_not_edge_replicated :
  map note_repr (filter (of_class 0) (smooth_pitch_activity MEDIAN_FILTER_SIZE boundary_notes))
  <> map note_repr (smoothed_class edge_pad (filter (of_class 0) boundary_notes)).
Proof. vm_compute. discriminate. Qed.


(** ** The merger leaves no mergeable pair *)

Lemma should_merge_next_ext (a b b' : Chord.t) :
  Chord.onset b' = Chord.onset b -> Chord.chord_symbol b' = Chord.chord_symbol b ->
  Chord.root_pc b' = Chord.root_pc b -> Chord.chord_type b' = Chord.chord_type b ->
  should_merge a b' = should_merge a b.
Proof. intros E1 E2 E3 E4. unfold should_merge. rewrite E1, E2, E3, E4. reflexivity. Qed.

Lemma merge_loop_head (rest : list Chord.t) : forall c,
  exists h tl, merge_loop c rest = h :: tl
    /\ Chord.onset h = Chord.onset c /\ Chord.chord_symbol h = Chord.chord_symbol c
    /\ Chord.root_pc h = Chord.root_pc c /\ Chord.chord_type h = Chord.chord_type c.
Proof.
  induction rest as [|n rest IH]; intros c; cbn [merge_loop].
  - exists c, []. repeat split.
  - destruct (should_merge c n).
    + destruct (IH (merge_two c n)) as [h [tl [E [H1 [H2 [H3 H4]]]]]].
      exists h, tl. rewrite E. repeat split; assumption.
    + exists c, (merge_loop n rest). repeat split.
Qed.

Lemma merge_loop_no_adjacent (rest : list Chord.t) : forall c,
  no_adjacent_merge (merge_loop c rest).
Proof.
  induction rest as [|n rest IH]; intros c; cbn [merge_loop]; [exact I|].
  destruct (should_merge c n) eqn:Em; [apply IH|].
  destruct (merge_loop_head rest n) as [h [tl [E [H1 [H2 [H3 H4]]]]]].
  specialize (IH n). rewrite E in IH |- *. split; [|exact IH].
  rewrite (should_merge_next_ext c n h); assumption.
Qed.

(** X10: after merging similar chords, no two adjacent chords could still be merged, and merging again changes nothing. *)
Theorem merge_similar_chords_complete (chords : list Chord.t) :
  no_adjacent_merge (merge_similar_chords chords)
  /\ merge_similar_chords (merge_similar_chords chords) = merge_similar_chords chords.
Proof.
  assert (Hn : no_adjacent_merge (merge_similar_chords chords)).
  { destruct chords as [|c [|n rest]]; [exact I | exact I | apply merge_loop_no_adjacent]. }
  split; [exact Hn|].
  destruct (merge_similar_chords chords) as [|c [|n rest]] eqn:E; try reflexivity.
  apply merge_loop_no_merge. exact Hn.
Qed.

(** ** Harmony filtering keeps confident, long chords *)

(** X8: harmony filtering keeps every chord whose confidence is at least 0.7 and whose duration is at least 1 second. *)
Theorem harmony_filtering_keeps_confident (chords : list Chord.t) (ke : KeyEstimate) (c : Chord.t) :
  In c chords -> 0.7 <= Chord.confidence c -> 1 <= chord_duration c ->
  In c (apply_harmony_filtering chords ke).
Proof.
  intros Hin Hc Hd. unfold apply_harmony_filtering. apply filter_In. split; [exact Hin|].
  unfold keep_chord.
  assert (E1 : Qltb (Chord.confidence c) 0.6 = false) by (apply Qltb_false; lra).
  rewrite E1, andb_false_r. cbv zeta.
  destruct (is_chord_root_in_key c ke); cbn [negb].
  - destruct (mem_string _ _ && true); [reflexivity|].
    assert (E2 : Qleb 0.3 (Chord.confidence c) = true) by (apply Qleb_iff; lra).
    rewrite E2. reflexivity.
  - assert (E2 : Qleb 0.7 (Chord.confidence c) = true) by (apply Qleb_iff; lra).
    assert (E3 : Qleb 1.0 (chord_duration c) = true) by (apply Qleb_iff; lra).
    rewrite E2, E3, andb_false_r. reflexivity.
Qed.

(** ** Relative keys *)

Lemma scale_member_mod (k : Z) (m : Mode) (c : Q) (x : Z) :
  mem_Z x (scale_pcs (mkKey k m c)) = mem_Z x (scale_pcs (mkKey (k mod 12) m c)).
Proof.
  unfold scale_pcs. cbn [key_pc mode]. f_equal. apply map_ext. intros i.
  rewrite Z.add_mod_idemp_l by lia. reflexivity.
Qed.

Lemma relative_scale_member (k : Z) (c : Q) (x : Z) :
  mem_Z x (scale_pcs (mkKey k Major c)) = mem_Z x (scale_pcs (mkKey (k + 9) Minor c)).
Proof.
  rewrite (scale_member_mod k), (scale_member_mod (k + 9)).
  rewrite <- (Z.add_mod_idemp_l k 9 12) by lia.
  assert (Hr : (0 <= k mod 12 < 12)%Z) by (apply Z.mod_pos_bound; lia).
  generalize (k mod 12)%Z Hr. intros r Hr'.
  assert (Hc : r = 0%Z \/ r = 1%Z \/ r = 2%Z \/ r = 3%Z \/ r = 4%Z \/ r = 5%Z \/ r = 6%Z
               \/ r = 7%Z \/ r = 8%Z \/ r = 9%Z \/ r = 10%Z \/ r = 11%Z) by lia.
  repeat destruct Hc as [->|Hc]; [..|subst r];
    unfold scale_pcs, mem_Z; cbn; btauto.
Qed.

(** X6: a major key and its relative minor (root + 9 mod 12) accept the same pitch classes, so key filtering gives the same notes for both. *)
Theorem relative_keys_same_scale (k : Z) (c : Q) (p : Z) (events : list Note.t) :
  is_in_key p (mkKey k Major c) = is_in_key p (mkKey ((k + 9) mod 12) Minor c)
  /\ apply_key_filtering events (mkKey k Major c)
     = apply_key_filtering events (mkKey ((k + 9) mod 12) Minor c).
Proof.
  assert (E : forall x, mem_Z x (scale_pcs (mkKey ((k + 9) mod 12) Minor c))
                        = mem_Z x (scale_pcs (mkKey (k + 9) Minor c))).
  { intros x. rewrite (scale_member_mod (k + 9)), scale_member_mod, Z.mod_mod by lia.
    reflexivity. }
  split.
  - unfold is_in_key. unfold key_conf_below. cbn [confidence_sq].
    destruct (Qltb c _); [reflexivity|]. rewrite E. apply relative_scale_member.
  - unfold apply_key_filtering. unfold key_conf_below. cbn [confidence_sq].
    destruct (Qltb c _); [reflexivity|]. apply filter_ext. intros e.
    rewrite E, relative_scale_member. reflexivity.
Qed.

(** ** A key estimate from notes of zero weight *)

Lemma add_at_zero (i : nat) (w : Q) (l : list Q) :
  w == 0 -> Forall (fun x => x == 0) l -> Forall (fun x => x == 0) (add_at i w l).
Proof.
  intros Hw H. revert i. induction H as [|x l Hx Hl IH]; intros i; [destruct i; constructor|].
  destruct i as [|i]; cbn [add_at]; constructor; auto. lra.
Qed.

Lemma histogram_zero (events : list Note.t) :
  Forall (fun n => Note.duration n * Note.confidence n == 0) events ->
  Forall (fun x => x == 0) (histogram events).
Proof.
  unfold histogram. intros H.
  assert (Hacc : Forall (fun x => x == 0) (repeat 0 12)) by (repeat constructor).
  revert Hacc. generalize (repeat 0 12) as h.
  induction H as [|n t Hn Ht IH]; intros h Hh; cbn [fold_left]; [exact Hh|].
  apply IH, add_at_zero; assumption.
Qed.

Lemma sumQ_zero (l : list Q) : Forall (fun x => x == 0) l -> sumQ l == 0.
Proof.
  unfold sumQ. intros H.
  assert (G : forall acc, acc == 0 -> fold_left (fun a b => Qred (a + b)) l acc == 0).
  2:{ apply G. reflexivity. }
  induction H as [|x l Hx Hl IH]; intros acc Hacc; cbn [fold_left]; [exact Hacc|].
  apply IH. rewrite Qred_correct. lra.
Qed.

(** X3: when every note has zero weight (duration times confidence is 0), the key estimate is C major with confidence 0. *)
Theorem estimate_key_zero_weight (note_events : list Note.t) (exclude_short_notes : bool) :
  Forall (fun n => Note.duration n * Note.confidence n == 0) note_events ->
  estimate_key note_events exclude_short_notes = mkKey 0 Major 0.
Proof.
  intros H. unfold estimate_key. destruct note_events as [|n t]; [reflexivity|].
  assert (Hz : Qeq_bool (sumQ (key_histogram (n :: t) exclude_short_notes)) 0 = true).
  { apply Qeq_bool_iff, sumQ_zero. unfold key_histogram. apply histogram_zero.
    destruct exclude_short_notes; [|exact H].
    destruct (filter _ (n :: t)) as [|f fs] eqn:Ef; [exact H|].
    rewrite <- Ef. apply Forall_filter. exact H. }
  rewrite Hz. reflexivity.
Qed.


(** ** The pitch smoother keeps every note *)

Lemma insert_by_perm {A} (key : A -> Q) (x : A) (l : list A) :
  Permutation (insert_by key x l) (x :: l).
Proof.
  induction l as [|y l IH]; cbn [insert_by]; [reflexivity|].
  destruct (Qleb (key y) (key x)); [|reflexivity].
  rewrite IH. apply perm_swap.
Qed.

Lemma sort_by_perm {A} (key : A -> Q) (l : list A) : Permutation (sort_by key l) l.
Proof.
  unfold sort_by.
  assert (G : forall acc, Permutation (fold_left (fun acc x => insert_by key x acc) l acc)
                                      (acc ++ l)).
  2:{ apply G. }
  induction l as [|x l IH]; intros acc; cbn [fold_left]; [rewrite app_nil_r; reflexivity|].
  rewrite IH, insert_by_perm. apply Permutation_middle.
Qed.

Lemma medfilt_length (k : nat) (xs : list Q) : length (medfilt k xs) = length xs.
Proof. unfold medfilt. rewrite length_map, length_seq. reflexivity. Qed.

Lemma map_fst_combine {A B} (l : list A) (m : list B) :
  length l = length m -> map fst (combine l m) = l.
Proof.
  revert m. induction l as [|x l IH]; intros [|y m] H; try discriminate; [reflexivity|].
  cbn. f_equal. apply IH. injection H as H. exact H.
Qed.

Lemma smooth_group_keys (k : nat) (g : list Note.t) :
  Permutation (map note_key (smooth_group k g)) (map note_key g).
Proof.
  unfold smooth_group. destruct (length g <=? 1)%nat; [reflexivity|].
  cbv zeta. destruct (k <=? _)%nat.
  - rewrite map_map.
    erewrite map_ext; [|intros x; reflexivity].
    transitivity (map note_key (map fst (combine (sort_by Note.onset g)
                    (medfilt k (map Note.confidence (sort_by Note.onset g)))))).
    { rewrite map_map. reflexivity. }
    rewrite map_fst_combine.
    + apply Permutation_map, sort_by_perm.
    + rewrite medfilt_length, length_map. reflexivity.
  - apply Permutation_map, sort_by_perm.
Qed.

Lemma group_add_perm (pc : Z) (n : Note.t) (g : list (Z * list Note.t)) :
  Permutation (flat_map snd (group_add pc n g)) (flat_map snd g ++ [n]).
Proof.
  induction g as [|[k ns] g IH]; cbn [group_add flat_map snd]; [reflexivity|].
  destruct (Z.eqb k pc); cbn [flat_map snd].
  - rewrite <- !app_assoc. apply Permutation_app_head. apply Permutation_app_comm.
  - rewrite <- app_assoc. apply Permutation_app_head. exact IH.
Qed.

Lemma group_by_pc_perm (notes : list Note.t) :
  Permutation (flat_map snd (group_by_pc notes)) notes.
Proof.
  unfold group_by_pc.
  assert (G : forall g, Permutation
                (flat_map snd (fold_left (fun g n => group_add (Note.pitch_class n) n g) notes g))
                (flat_map snd g ++ notes)).
  2:{ apply G. }
  induction notes as [|n notes IH]; intros g; cbn [fold_left]; [rewrite app_nil_r; reflexivity|].
  rewrite IH, group_add_perm, <- app_assoc. reflexivity.
Qed.

(** X1: pitch smoothing drops, adds and alters no note's onset, offset or pitch: the output's (onset, offset, pitch) triples are a permutation of the input's. *)
Theorem smooth_pitch_activity_keeps_notes (filter_size : nat) (note_events : list Note.t) :
  Permutation (map note_key (smooth_pitch_activity filter_size note_events))
              (map note_key note_events).
Proof.
  unfold smooth_pitch_activity. destruct note_events as [|n0 t]; [reflexivity|].
  rewrite <- (group_by_pc_perm (n0 :: t)) at 2.
  generalize (group_by_pc (n0 :: t)) as g. intros g.
  induction g as [|[k ns] g IH]; cbn [flat_map snd]; [reflexivity|].
  rewrite !map_app. apply Permutation_app; [apply smooth_group_keys | exact IH].
Qed.

(** ** The pitch smoother keeps confidences in a range containing 0 *)

Lemma medfilt_Forall (P : Q -> Prop) (k : nat) (xs : list Q) :
  P 0 -> Forall P xs -> Forall P (medfilt k xs).
Proof.
  intros H0 H. unfold medfilt. rewrite Forall_forall. intros y Hy.
  apply in_map_iff in Hy as [i [Hi _]]. subst y.
  apply Forall_nth_default; [|exact H0].
  apply sort_by_Forall, Forall_firstn_skipn.
  assert (Hz : Forall P (repeat 0 (Nat.div k 2))).
  { rewrite Forall_forall. intros z Hz. apply repeat_spec in Hz. subst z. exact H0. }
  apply Forall_app; split; [exact Hz|]. apply Forall_app; split; assumption.
Qed.

Lemma smooth_group_conf (P : Q -> Prop) (k : nat) (g : list Note.t) :
  P 0 -> Forall (fun n => P (Note.confidence n)) g ->
  Forall (fun n => P (Note.confidence n)) (smooth_group k g).
Proof.
  intros H0 H. unfold smooth_group.
  destruct (length g <=? 1)%nat; [exact H|].
  pose proof (sort_by_Forall _ Note.onset g H) as Hs.
  destruct (k <=? _)%nat; [|exact Hs].
  assert (Hc : Forall P (medfilt k (map Note.confidence (sort_by Note.onset g)))).
  { apply medfilt_Forall; [exact H0|]. rewrite Forall_map. exact Hs. }
  rewrite Forall_forall in Hc |- *. intros x Hx.
  apply in_map_iff in Hx as [[e c] [Hx Hin]]. subst x. cbn.
  apply Hc. eapply in_combine_r. exact Hin.
Qed.

(** X2: when every input confidence lies in [0, 1], every confidence after pitch smoothing lies in [0, 1] (a median of values in the range). *)
Theorem smooth_pitch_activity_conf_range (filter_size : nat) (note_events : list Note.t) :
  Forall (fun n => 0 <= Note.confidence n <= 1) note_events ->
  Forall (fun n => 0 <= Note.confidence n <= 1) (smooth_pitch_activity filter_size note_events).
Proof.
  intros H. unfold smooth_pitch_activity. destruct note_events as [|n0 t]; [constructor|].
  apply Forall_flat_map. rewrite Forall_forall. intros ge Hge.
  apply (smooth_group_conf (fun q => 0 <= q <= 1)); [lra|].
  rewrite Forall_forall. intros x Hx. rewrite Forall_forall in H. apply H.
  apply (Permutation_in _ (group_by_pc_perm (n0 :: t))).
  apply in_flat_map. exists ge. split; assumption.
Qed.


(** ** The window smoother copies chord data *)

Lemma copied_from_self (ce : list Chord.t) (c : Chord.t) : In c ce -> copied_from ce c.
Proof. intros H. exists c. repeat split. exact H. Qed.

Lemma emit_run_copied (ce : list Chord.t) (sym : string) (on off : Q) :
  Forall (copied_from ce) (emit_run ce sym on off).
Proof.
  unfold emit_run. destruct (String.eqb sym "N"); [constructor|].
  destruct (find_original ce sym) as [o|] eqn:E; [|constructor].
  apply find_some in E as [Hin Hs]. apply String.eqb_eq in Hs.
  constructor; [|constructor]. exists o. cbn. repeat split; assumption.
Qed.

Lemma reseg_loop_copied (ce : list Chord.t) (rest : list (Q * string)) :
  forall sym start prev, Forall (copied_from ce) (fst (reseg_loop ce rest sym start prev)).
Proof.
  induction rest as [|[p s] rest IH]; intros sym start prev; simpl; [constructor|].
  destruct (negb (String.eqb s sym) || match rest with [] => true | _ => false end);
    [|apply IH].
  specialize (IH s p p). destruct (reseg_loop ce rest s p p) as [out st].
  simpl in *. apply Forall_app. split; [apply emit_run_copied | exact IH].
Qed.

Lemma smooth_chord_progression_copied (chord_events : list Chord.t) :
  Forall (copied_from chord_events) (smooth_chord_progression chord_events).
Proof.
  assert (Hself : Forall (copied_from chord_events) chord_events).
  { rewrite Forall_forall. apply copied_from_self. }
  unfold smooth_chord_progression.
  destruct (length chord_events <=? 2)%nat; [exact Hself|].
  destruct (Qleb _ 0); [exact Hself|].
  destruct (filter_window <=? _)%nat; [|exact Hself].
  unfold resegment. destruct (combine _ _) as [|[p0 s0] rest]; [constructor|].
  pose proof (reseg_loop_copied chord_events rest s0 p0 p0) as Hr.
  destruct (reseg_loop chord_events rest s0 p0 p0) as [out [sym st]].
  apply Forall_app. split; [exact Hr | apply emit_run_copied].
Qed.

(** ** The chords of the window detector *)

Lemma fold_left_invariant {A B} (P : A -> Prop) (f : A -> B -> A) (l : list B) :
  (forall a x, In x l -> P a -> P (f a x)) -> forall a, P a -> P (fold_left f l a).
Proof.
  induction l as [|x l IH]; intros Hf a Ha; cbn [fold_left]; [exact Ha|].
  apply IH; [intros b y Hy; apply Hf; right; exact Hy|]. apply Hf; [left|]; auto.
Qed.

Lemma identify_chord_type (pcs : list Z) (ke : KeyEstimate) (w : list (Z * Q)) :
  In (snd (identify_chord pcs ke w)) chord_types.
Proof.
  unfold identify_chord, chord_types. destruct pcs as [|p0 ps].
  - apply in_or_app. right. left. reflexivity.
  - set (pcs := p0 :: ps).
    assert (H : id_state_ok (fold_left (fun st root =>
                  fold_left (id_step pcs ke w root) chord_tests st) pcs (0, None))).
    { apply fold_left_invariant; [|exact I]. intros st root _ Hst.
      apply fold_left_invariant; [|exact Hst]. intros st' t Ht Hst'.
      unfold id_step. destruct (chord_score _ _ _ _ _); [|exact Hst'].
      destruct (Qltb _ _); [|exact Hst']. unfold id_state_ok. cbn [snd].
      apply in_map. exact Ht. }
    revert H. generalize (fold_left (fun (st : id_state) (root : Z) =>
                  fold_left (id_step pcs ke w root) chord_tests st) pcs (0, None)).
    intros [b [[[sym ty] r]|]] H; cbn [snd].
    + apply in_or_app. left. exact H.
    + apply in_or_app. right. left. reflexivity.
Qed.

Lemma add_weight_keys (pc k : Z) (w : Q) (d : list (Z * Q)) :
  In k (map fst (add_weight pc w d)) -> k = pc \/ In k (map fst d).
Proof.
  induction d as [|[i v] d IH]; cbn [add_weight map fst].
  - intros [E|[]]. left. symmetry. exact E.
  - intros Hk. destruct (Z.eqb i pc); cbn [map fst] in Hk |- *.
    + right. exact Hk.
    + destruct Hk as [E|Hk]; [right; left; exact E|].
      destruct (IH Hk); [left | right; right]; assumption.
Qed.

Lemma add_weight_ok (pc : Z) (w : Q) (d : list (Z * Q)) :
  (0 <= pc < 12)%Z -> pc_set_ok (map fst d) -> pc_set_ok (map fst (add_weight pc w d)).
Proof.
  intros Hpc [Hn Hr]. split.
  - induction d as [|[i v] d IH]; cbn [add_weight map fst] in *.
    + constructor; [intros []|constructor].
    + apply NoDup_cons_iff in Hn as [Hi Hn]. apply Forall_cons_iff in Hr as [_ Hr].
      destruct (Z.eqb_spec i pc); cbn [map fst]; constructor; auto.
      intros Hin. apply add_weight_keys in Hin as [Hin|Hin]; [congruence | contradiction].
  - rewrite Forall_forall in Hr |- *. intros k Hk.
    apply add_weight_keys in Hk as [->|Hk]; [exact Hpc | apply Hr, Hk].
Qed.

Lemma pitch_class_range (n : Note.t) : (0 <= Note.pitch_class n < 12)%Z.
Proof. unfold Note.pitch_class. apply Z.mod_pos_bound. lia. Qed.

Lemma window_histogram_keys (notes : list Note.t) (s e : Q) :
  pc_set_ok (map fst (window_histogram notes s e)).
Proof.
  unfold window_histogram.
  assert (H0 : pc_set_ok (map fst (@nil (Z * Q)))) by (split; constructor).
  revert H0. generalize (@nil (Z * Q)) as d.
  induction notes as [|n notes IH]; intros d Hd; cbn [fold_left]; [exact Hd|].
  apply IH, add_weight_ok; [apply pitch_class_range | exact Hd].
Qed.

Lemma insert_desc_by_perm {A} (key : A -> Q) (x : A) (l : list A) :
  Permutation (insert_desc_by key x l) (x :: l).
Proof.
  induction l as [|y l IH]; cbn [insert_desc_by]; [reflexivity|].
  destruct (Qleb (key x) (key y)); [|reflexivity].
  rewrite IH. apply perm_swap.
Qed.

Lemma sort_desc_by_perm {A} (key : A -> Q) (l : list A) : Permutation (sort_desc_by key l) l.
Proof.
  unfold sort_desc_by.
  assert (G : forall acc, Permutation (fold_left (fun acc x => insert_desc_by key x acc) l acc)
                                      (acc ++ l)).
  2:{ apply G. }
  induction l as [|x l IH]; intros acc; cbn [fold_left]; [rewrite app_nil_r; reflexivity|].
  rewrite IH, insert_desc_by_perm. apply Permutation_middle.
Qed.

Lemma pc_set_ok_perm (l l' : list Z) : Permutation l l' -> pc_set_ok l -> pc_set_ok l'.
Proof.
  intros P [Hn Hr]. split; [exact (Permutation_NoDup P Hn)|].
  rewrite Forall_forall in Hr |- *. intros x Hx. apply Hr.
  apply (Permutation_in _ (Permutation_sym P)). exact Hx.
Qed.

Lemma pc_set_ok_filter_fst {B} (p : Z * B -> bool) (l : list (Z * B)) :
  pc_set_ok (map fst l) -> pc_set_ok (map fst (filter p l)).
Proof.
  induction l as [|[k v] l IH]; cbn [filter]; [tauto|]. intros [Hn Hr].
  cbn [map fst] in Hn, Hr. apply NoDup_cons_iff in Hn as [Hk Hn].
  apply Forall_cons_iff in Hr as [Hkr Hr].
  destruct (IH (conj Hn Hr)) as [Hn' Hr'].
  destruct (p (k, v)); [|split; assumption].
  split; cbn [map fst]; constructor; auto.
  intros Hin. apply Hk. apply in_map_iff in Hin as [[k' v'] [E Hin]]. cbn in E. subst k'.
  apply filter_In in Hin as [Hin _]. apply in_map_iff. exists (k, v'). auto.
Qed.

Lemma pc_set_ok_firstn (n : nat) (l : list Z) : pc_set_ok l -> pc_set_ok (firstn n l).
Proof.
  intros [Hn Hr]. rewrite <- (firstn_skipn n l) in Hn, Hr.
  apply Forall_app in Hr as [Hr _]. split; [|exact Hr].
  apply NoDup_app_remove_r in Hn. exact Hn.
Qed.

Lemma analyze_window_raw (notes : list Note.t) (s e : Q) (ke : KeyEstimate) (c : Chord.t) :
  analyze_window notes s e ke = Some c ->
  Chord.onset c = s /\ Chord.offset c = e /\ pc_set_ok (Chord.pitch_classes c)
  /\ (2 <= length (Chord.pitch_classes c) <= 6)%nat
  /\ Chord.root_pc c = minZ (Chord.pitch_classes c)
  /\ In (Chord.chord_type c) chord_types.
Proof.
  pose proof (window_histogram_keys notes s e) as Hk.
  unfold analyze_window. destruct notes as [|n0 t]; [discriminate|].
  destruct (window_histogram _ s e) as [|kw h] eqn:Eh; [discriminate|].
  cbv zeta.
  match goal with |- context [firstn 6 ?l] => remember (firstn 6 l) as sig eqn:Esig end.
  destruct (_ <? _)%nat eqn:Elen; [discriminate|]. apply Nat.ltb_ge in Elen.
  match goal with |- context [identify_chord ?p ?k ?w] =>
    pose proof (identify_chord_type p k w) as Ht end.
  destruct (identify_chord _ _ _) as [sym ty]. intros E. injection E as <-.
  cbn [snd] in Ht. unfold MIN_NOTES_PER_CHORD in Elen.
  cbn [Chord.onset Chord.offset Chord.pitch_classes Chord.root_pc Chord.chord_type].
  split; [reflexivity|]. split; [reflexivity|].
  split; [|split; [split; [exact Elen | rewrite Esig, length_firstn; lia]|split; [reflexivity | exact Ht]]].
  rewrite Esig. apply pc_set_ok_firstn, pc_set_ok_filter_fst.
  apply (pc_set_ok_perm (map fst (kw :: h))); [|exact Hk].
  apply Permutation_map. symmetry. apply sort_desc_by_perm.
Qed.

Lemma window_loop_raw (fuel : nat) (se : list Note.t) (ke : KeyEstimate) :
  forall cur e, Forall raw_chord_ok (window_loop fuel se ke cur e).
Proof.
  induction fuel as [|fuel IH]; intros cur e; simpl; [constructor|].
  destruct (Qltb cur e); [|constructor].
  match goal with
  | |- context [match ?x with Some c => _ | None => _ end] => destruct x as [c|] eqn:Ec
  end; [|apply IH].
  constructor; [|apply IH].
  match type of Ec with
  | (if ?b then _ else None) = _ => destruct b; [|discriminate]
  end.
  apply analyze_window_raw in Ec as [Hon [Hoff Hrest]].
  split; [rewrite Hon, Hoff; reflexivity | exact Hrest].
Qed.

Lemma detect_chords_raw (events : list Note.t) (ke : KeyEstimate) :
  Forall raw_chord_ok (detect_chords_in_windows events ke).
Proof.
  unfold detect_chords_in_windows. destruct events as [|n t]; [constructor|].
  apply window_loop_raw.
Qed.

(** ** Pitch-class sets and types of the final chords *)

Lemma mem_Z_In (x : Z) (l : list Z) : mem_Z x l = true <-> In x l.
Proof.
  unfold mem_Z. rewrite existsb_exists. split.
  - intros [y [Hy E]]. apply Z.eqb_eq in E. subst y. exact Hy.
  - intros H. exists x. split; [exact H | apply Z.eqb_refl].
Qed.

Lemma unionZ_ok (a b : list Z) :
  pc_set_ok a -> pc_set_ok b -> pc_set_ok (unionZ a b) /\ (length a <= length (unionZ a b))%nat.
Proof.
  intros [Ha Ra] [Hb Rb]. unfold unionZ. split; [split|].
  - apply NoDup_app; [exact Ha | apply NoDup_filter, Hb|].
    intros x Hx Hf. apply filter_In in Hf as [_ Hf].
    apply negb_true_iff in Hf. apply (proj2 (mem_Z_In x a)) in Hx. congruence.
  - apply Forall_app. split; [exact Ra | apply Forall_filter, Rb].
  - rewrite length_app. lia.
Qed.

Lemma raw_chord_shape (c : Chord.t) : raw_chord_ok c -> chord_shape_ok c.
Proof. intros [_ [Hp [Hl [_ Ht]]]]. split; [exact Hp | split; [lia | exact Ht]]. Qed.

Lemma merge_two_shape (c n : Chord.t) :
  chord_shape_ok c -> chord_shape_ok n -> chord_shape_ok (merge_two c n).
Proof.
  intros [Hc [Hcl Hct]] [Hn _]. unfold merge_two, chord_shape_ok.
  cbn [Chord.pitch_classes Chord.chord_type].
  destruct (unionZ_ok _ _ Hc Hn) as [Hu Hl]. split; [exact Hu | split; [lia | exact Hct]].
Qed.

Lemma merge_similar_chords_shape (chords : list Chord.t) :
  Forall chord_shape_ok chords -> Forall chord_shape_ok (merge_similar_chords chords).
Proof.
  intros H. unfold merge_similar_chords. destruct chords as [|c [|n rest]]; [exact H | exact H|].
  apply Forall_cons_iff in H as [Hc H]. revert H c Hc. generalize (n :: rest) as l.
  clear n rest. induction l as [|n rest IH]; intros H c Hc; cbn [merge_loop];
    [constructor; [exact Hc | constructor]|].
  apply Forall_cons_iff in H as [Hn Hr].
  destruct (should_merge c n).
  - apply IH; [exact Hr | apply merge_two_shape; assumption].
  - constructor; [exact Hc | apply IH; assumption].
Qed.

Lemma smooth_chord_progression_shape (chords : list Chord.t) :
  Forall chord_shape_ok chords -> Forall chord_shape_ok (smooth_chord_progression chords).
Proof.
  intros H. pose proof (smooth_chord_progression_copied chords) as Hc.
  rewrite Forall_forall in H, Hc |- *. intros c Hin.
  destruct (Hc c Hin) as [o [Ho [_ [_ [Hp [_ Ht]]]]]].
  destruct (H o Ho) as [A [B C]]. unfold chord_shape_ok. rewrite <- Hp, <- Ht. auto.
Qed.

(** X12: every chord returned by infer_chords has distinct pitch classes in [0, 12), at least two of them, and a chord type from the table or unknown. *)
Theorem infer_chords_shape (note_events : list Note.t) :
  Forall chord_shape_ok (fst (infer_chords note_events)).
Proof.
  unfold infer_chords. cbv zeta. cbn [fst].
  unfold ensure_stability. apply Forall_filter.
  apply merge_similar_chords_shape, smooth_chord_progression_shape.
  unfold apply_harmony_filtering. apply Forall_filter.
  eapply Forall_impl; [apply raw_chord_shape | apply detect_chords_raw].
Qed.




(** ** The record conversion loop of [process_note_events] *)


(** ** The key reported by [process_note_events] *)

Lemma clamp01_range (x : Q) : 0 <= clamp01 x <= 1.
Proof.
  unfold clamp01. split; [apply Q.le_max_l|].
  apply Q.max_lub; [lra | apply Q.le_min_l].
Qed.

Lemma estimate_key_range (note_events : list Note.t) (exclude_short_notes : bool) :
  (0 <= key_pc (estimate_key note_events exclude_short_notes) < 12)%Z
  /\ 0 <= confidence_sq (estimate_key note_events exclude_short_notes) <= 1.
Proof.
  unfold estimate_key. destruct note_events as [|n t]; [cbn; split; [lia | lra]|].
  destruct (Qeq_bool _ 0); [cbn; split; [lia | lra]|].
  match goal with |- context [fold_left (key_step ?w) (seq 0 12) ?a] =>
    assert (H : (fst (snd (fold_left (key_step w) (seq 0 12) a)) < 12)%nat);
    [| destruct (fold_left (key_step w) (seq 0 12) a) as [b [k m]]] end.
  - apply fold_left_invariant; [|cbn; lia].
    intros [b [k m]] r Hr Hk. apply in_seq in Hr. unfold key_step.
    destruct (Qltb b _); destruct (Qltb _ _); cbn in *; lia.
  - cbn [key_pc confidence_sq fst snd] in *. split; [lia | apply clamp01_range].
Qed.

Lemma note_name_In (k : Z) : (0 <= k < 12)%Z -> In (note_name k) note_names.
Proof.
  intros Hk. unfold note_name. apply nth_In. cbn [note_names length]. lia.
Qed.

(** X14: when process_note_events returns, its key is one of the twelve note names, its mode is major or minor and its (squared) confidence lies in [0, 1]. *)
Theorem process_note_events_key_ok (pf : string -> option Q) (pi : string -> option Z)
    (raw_notes : list PyDict) :
  match process_note_events pf pi raw_notes with
  | Ok o =>
    In (ki_key (out_key o)) note_names
    /\ (ki_mode (out_key o) = "major" \/ ki_mode (out_key o) = "minor")%string
    /\ 0 <= ki_confidence_sq (out_key o) <= 1
  | Raise _ => True
  end.
Proof.
  unfold process_note_events. destruct (convert_all pf pi raw_notes) as [[ns sk]|e];
    cbn [bind]; [|exact I].
  destruct ns as [|n t].
  - cbn. split; [left; reflexivity | split; [left; reflexivity | lra]].
  - destruct (infer_chords (n :: t)) as [cs ke] eqn:E. cbn [out_key ki_key ki_mode ki_confidence_sq].
    assert (Hke : ke = estimate_key (filter_short_notes
                    (smooth_pitch_activity MEDIAN_FILTER_SIZE (n :: t))) true).
    { unfold infer_chords in E. injection E as _ <-. reflexivity. }
    destruct (estimate_key_range (filter_short_notes
                (smooth_pitch_activity MEDIAN_FILTER_SIZE (n :: t))) true) as [Hk Hc].
    rewrite <- Hke in Hk, Hc.
    split; [apply note_name_In, Hk|]. split; [|exact Hc].
    destruct (mode ke); [left | right]; reflexivity.
Qed.

(** ** The server's note conversion and chord block *)

Lemma convert_event_bounds (pf : string -> option Q) (pi : string -> option Z) (d : Q)
    (note : list PyVal) (n : Note.t) :
  convert_event pf pi d note = Ok (Some n) -> Note.onset n < d /\ Note.offset n <= d.
Proof.
  unfold convert_event.
  destruct note as [|v0 [|v1 [|v2 [|v3 rest]]]];
    try (destruct (seq_repr_raises _); discriminate).
  destruct (py_float pf v0) as [o|e]; cbn [bind]; [|discriminate].
  destruct (py_float pf v1) as [f|e]; cbn [bind]; [|discriminate].
  destruct (Qleb d o) eqn:Eo; [discriminate|]. apply Qleb_false in Eo.
  destruct (py_int pi v2) as [p|e]; cbn [bind]; [|discriminate].
  destruct (py_float pf v3) as [c|e]; cbn [bind]; [|discriminate].
  intros E. injection E as <-. cbn [Note.onset Note.offset]. split; [exact Eo|].
  destruct (Qltb d f) eqn:Ef; [apply Qle_refl|]. apply Qltb_false in Ef. exact Ef.
Qed.

(** X15: every note the server converts starts before the original audio duration and ends no later than it. *)
Theorem convert_events_within_audio (pf : string -> option Q) (pi : string -> option Z)
    (original_duration : Q) (note_events : list (list PyVal)) (json_notes : list Note.t) :
  convert_events pf pi original_duration note_events = Ok json_notes ->
  Forall (fun n => Note.onset n < original_duration /\ Note.offset n <= original_duration)
         json_notes.
Proof.
  revert json_notes. induction note_events as [|note t IH]; intros ns H; cbn [convert_events] in H.
  - injection H as <-. constructor.
  - destruct (convert_event pf pi original_duration note) as [[n|]|e] eqn:E.
    + destruct (convert_events pf pi original_duration t) as [r|e]; cbn [bind] in H;
        [|discriminate].
      injection H as <-. constructor; [apply (convert_event_bounds pf pi _ note), E | apply IH; reflexivity].
    + apply IH, H.
    + destruct (server_caught e); [|discriminate].
      destruct (seq_repr_raises note); [discriminate | apply IH, H].
Qed.

Lemma convert_all_note_dicts_ok (pf : string -> option Q) (pi : string -> option Z)
    (json_notes : list Note.t) :
  convert_all pf pi (map note_to_dict json_notes) = Ok (json_notes, []).
Proof.
  induction json_notes as [|[o f p c] t IH]; [reflexivity|].
  cbn [map convert_all]. rewrite IH. reflexivity.
Qed.

(** X17: the server's chord step returns no chords and C major with confidence 0 for no notes, and otherwise the chords and key of infer_chords on its notes. *)
Theorem server_chords_spec (pf : string -> option Q) (pi : string -> option Z)
    (json_notes : list Note.t) :
  server_chords pf pi json_notes
  = match json_notes with
    | [] => ([], mkKeyInfo "C" "major" 0)
    | _ =>
      let '(chord_events, key_estimate) := infer_chords json_notes in
      (map chord_to_dict chord_events,
       mkKeyInfo (note_name (key_pc key_estimate)) (mode_name (mode key_estimate))
                 (confidence_sq key_estimate))
    end.
Proof.
  unfold server_chords, process_note_events. rewrite convert_all_note_dicts_ok. cbn [bind].
  destruct json_notes as [|n t]; [reflexivity|].
  destruct (infer_chords (n :: t)); reflexivity.
Qed.


Lemma merge_loop_covers (rest : list Chord.t) : forall c,
  StronglySorted Qle (map Chord.onset rest) ->
  Forall (fun y => Chord.onset c <= Chord.onset y) rest ->
  Forall (covered_by (merge_loop c rest)) (c :: rest).
Proof.
  induction rest as [|n rest IH]; intros c Hs Hc; cbn [merge_loop].
  - constructor; [|constructor]. exists c. split; [left; reflexivity | split; apply Qle_refl].
  - cbn [map] in Hs. apply StronglySorted_inv in Hs as [Hs Hn].
    apply Forall_cons_iff in Hc as [Hcn Hc].
    rewrite Forall_map in Hn.
    destruct (should_merge c n).
    + assert (Hm : Forall (fun y => Chord.onset (merge_two c n) <= Chord.onset y) rest)
        by exact Hc.
      specialize (IH (merge_two c n) Hs Hm).
      apply Forall_cons_iff in IH as [[m [Hin [H1 H2]]] IH].
      cbn [merge_two Chord.onset Chord.offset] in H1, H2.
      constructor; [|constructor; [|exact IH]].
      * exists m. split; [exact Hin|]. split; [exact H1|].
        eapply Qle_trans; [apply Q.le_max_l | exact H2].
      * exists m. split; [exact Hin|]. split; [eapply Qle_trans; [exact H1 | exact Hcn]|].
        eapply Qle_trans; [apply Q.le_max_r | exact H2].
    + constructor.
      * exists c. split; [left; reflexivity | split; apply Qle_refl].
      * eapply Forall_impl; [|apply (IH n Hs Hn)].
        intros x [m [Hin Hm]]. exists m. split; [right; exact Hin | exact Hm].
Qed.

(** X11: for chords sorted by onset, the time span of every input chord lies within the span of some merged chord. *)
Theorem merge_similar_chords_covers (chords : list Chord.t) :
  StronglySorted Qle (map Chord.onset chords) ->
  Forall (covered_by (merge_similar_chords chords)) chords.
Proof.
  intros Hs. destruct chords as [|c [|n rest]]; [constructor| |].
  - constructor; [|constructor]. exists c. split; [left; reflexivity | split; apply Qle_refl].
  - cbn [merge_similar_chords].
    change (map Chord.onset (c :: n :: rest)) with (Chord.onset c :: map Chord.onset (n :: rest))
      in Hs.
    apply StronglySorted_inv in Hs as [Hs Hc].
    apply merge_loop_covers; [exact Hs|]. rewrite Forall_map in Hc. exact Hc.
Qed.

(** X4: when every note is shorter than MIN_NOTE_DURATION, excluding short notes falls back to all notes, so the estimate equals the one computed without exclusion. *)
Theorem estimate_key_short_notes_fallback (note_events : list Note.t) :
  Forall (fun n => Note.duration n < MIN_NOTE_DURATION) note_events ->
  estimate_key note_events true = estimate_key note_events false.
Proof.
  intros H. assert (E : key_histogram note_events true = key_histogram note_events false).
  { unfold key_histogram.
    assert (Hf : filter (fun n => Qleb MIN_NOTE_DURATION (Note.duration n)) note_events = []).
    { induction H as [|n t Hn Ht IH]; [reflexivity|]. cbn [filter].
      assert (E : Qleb MIN_NOTE_DURATION (Note.duration n) = false) by (apply Qleb_false; exact Hn).
      rewrite E. exact IH. }
    rewrite Hf. reflexivity. }
  unfold estimate_key. rewrite E. reflexivity.
Qed.

(** ** Statements of the further properties *)

(** X9: every chord produced by chord window smoothing copies the symbol, confidence, pitch classes, root and type of some input chord. *)
Theorem smooth_chord_progression_copies (chord_events : list Chord.t) :
  Forall (copied_from chord_events) (smooth_chord_progression chord_events).
Proof. apply smooth_chord_progression_copied. Qed.

(** X7: every chord detected in a window spans exactly WINDOW_SIZE from the window start, has 2 to 6 distinct pitch classes in [0, 12), has the lowest of them as root and a chord type from the table or unknown. *)
Theorem detect_chords_in_windows_shape (events : list Note.t) (ke : KeyEstimate) :
  Forall raw_chord_ok (detect_chords_in_windows events ke).
Proof. apply detect_chords_raw. Qed.

(** X16: the dictionaries the server builds from its notes convert back to the same notes, none skipped. *)
Theorem convert_all_note_dicts (pf : string -> option Q) (pi : string -> option Z)
    (json_notes : list Note.t) :
  convert_all pf pi (map note_to_dict json_notes) = Ok (json_notes, []).
Proof. apply convert_all_note_dicts_ok. Qed.

(** X5: the estimated key's pitch class lies in [0, 12) and its (squared) confidence lies in [0, 1]. *)
Theorem estimate_key_in_range (note_events : list Note.t) (exclude_short_notes : bool) :
  (0 <= key_pc (estimate_key note_events exclude_short_notes) < 12)%Z
  /\ 0 <= confidence_sq (estimate_key note_events exclude_short_notes) <= 1.
Proof. apply estimate_key_range. Qed.

(** ** Witnesses *)

Lemma harmony_filtering_keeps_confident_witness :
  In confident_chord [confident_chord] /\ 0.7 <= Chord.confidence confident_chord
  /\ 1 <= chord_duration confident_chord
  /\ In confident_chord (apply_harmony_filtering [confident_chord] (mkKey 0 Major 1)).
Proof.
  assert (H1 : In confident_chord [confident_chord]) by (left; reflexivity).
  assert (H2 : 0.7 <= Chord.confidence confident_chord) by (cbn; lra).
  assert (H3 : 1 <= chord_duration confident_chord) by (unfold chord_duration; cbn; lra).
  split; [exact H1|]. split; [exact H2|]. split; [exact H3|].
  exact (harmony_filtering_keeps_confident [confident_chord] (mkKey 0 Major 1) confident_chord
           H1 H2 H3).
Defined.

Lemma estimate_key_zero_weight_witness :
  Forall (fun n => Note.duration n * Note.confidence n == 0) silent_notes
  /\ estimate_key silent_notes true = mkKey 0 Major 0.
Proof.
  assert (H : Forall (fun n => Note.duration n * Note.confidence n == 0) silent_notes).
  { unfold silent_notes. repeat constructor; vm_compute; reflexivity. }
  split; [exact H | exact (estimate_key_zero_weight silent_notes true H)].
Defined.

Lemma estimate_key_short_notes_fallback_witness :
  Forall (fun n => Note.duration n < MIN_NOTE_DURATION) short_notes
  /\ estimate_key short_notes true = estimate_key short_notes false.
Proof.
  assert (H : Forall (fun n => Note.duration n < MIN_NOTE_DURATION) short_notes).
  { unfold short_notes. repeat constructor; vm_compute; reflexivity. }
  split; [exact H | exact (estimate_key_short_notes_fallback short_notes H)].
Defined.

Lemma smooth_pitch_activity_conf_range_witness :
  Forall (fun n => 0 <= Note.confidence n <= 1) boundary_notes
  /\ Forall (fun n => 0 <= Note.confidence n <= 1)
            (smooth_pitch_activity MEDIAN_FILTER_SIZE boundary_notes).
Proof.
  assert (H : Forall (fun n => 0 <= Note.confidence n <= 1) boundary_notes).
  { unfold boundary_notes. repeat constructor; cbn; lra. }
  split; [exact H | exact (smooth_pitch_activity_conf_range MEDIAN_FILTER_SIZE boundary_notes H)].
Defined.

Lemma merge_similar_chords_covers_witness :
  StronglySorted Qle (map Chord.onset overlapping_chords)
  /\ Forall (covered_by (merge_similar_chords overlapping_chords)) overlapping_chords.
Proof.
  assert (H : StronglySorted Qle (map Chord.onset overlapping_chords)).
  { unfold overlapping_chords. cbn. repeat constructor; lra. }
  split; [exact H | exact (merge_similar_chords_covers overlapping_chords H)].
Defined.

Lemma convert_events_within_audio_witness :
  convert_events no_float_literal no_int_literal 3 server_events = Ok [Note.mk 0 3 60 0.8]
  /\ Forall (fun n => Note.onset n < 3 /\ Note.offset n <= 3) [Note.mk 0 3 60 0.8].
Proof.
  assert (H : convert_events no_float_literal no_int_literal 3 server_events
              = Ok [Note.mk 0 3 60 0.8]) by (vm_compute; reflexivity).
  split; [exact H|].
  exact (convert_events_within_audio no_float_literal no_int_literal 3 server_events _ H).
Defined.
